(** * The FFT butterfly mesh of [meshes/butterfly.py]

    A shallow embedding of [ButterflyNetwork.__init__]: the argument checks,
    the butterfly topology (strides and the permutation vectors of every
    layer), the recursive block decomposition [configButterfly] and the
    layer-by-layer phase solver.

    Mesh sizes and the integers that index arrays are [nat]; numpy arrays
    are lists (nested lists for several axes); an operation that raises in
    Python returns [Err].  Floating-point and complex scalars,
    [numpy.linalg.svd], the crossing object [X] and the constructor of the
    base class come from outside [butterfly.py]: they are the fields of the
    interfaces [Scalars] and [Crossing] and an argument of
    [ButterflyNetwork_init]. *)

From Stdlib Require Import Ascii.
From stdpp Require Import base numbers list strings pretty.

Set Default Proof Using "Type".

(** ** Exceptions and results *)

Inductive exn : Set :=
  | AssertionError
  | TypeError
  | ValueError
  | IndexError
  | OverflowError
  | LinAlgError
  | RecursionError.

Inductive result (A : Type) : Type :=
  | Ok (a : A)
  | Err (e : exn).
Arguments Ok {A} a.
Arguments Err {A} e.

Global Instance result_ret : MRet result := λ A a, Ok a.
Global Instance result_bind : MBind result := λ A B f m,
  match m with
  | Ok a => f a
  | Err e => Err e
  end.

(** ** The numpy operations on index arrays *)

Module Np.

(** [np.arange(start, stop, step)] on non-negative integers, for a
    positive [step] (the source only uses steps [1], [2] and [2*s]). *)
Definition arange3 (start stop step : nat) : list nat :=
  (λ k, start + k * step) <$> seq 0 ((stop - start + (step - 1)) `div` step).

(** [np.arange(n)]. *)
Definition arange (n : nat) : list nat := arange3 0 n 1.

(** [np.outer(u, v)]: both arguments are flattened by numpy first, so the
    scalar [1] is the one-element vector [[1]]. *)
Definition outer (u v : list nat) : list (list nat) :=
  (λ a, (λ b, a * b) <$> v) <$> u.

Definition rows (A : list (list nat)) : nat := length A.
Definition cols (A : list (list nat)) : nat := length (default [] (head A)).

(** Broadcasting of one axis: equal extents, or one of them is 1. *)
Definition bdim (m n : nat) : result nat :=
  if decide (m = n) then Ok m
  else if decide (m = 1) then Ok n
  else if decide (n = 1) then Ok m
  else Err ValueError.

(** Entry [(r, c)] of [A] seen through broadcasting: an axis of extent 1
    is read at index 0. *)
Definition bget (A : list (list nat)) (r c : nat) : nat :=
  default 0 (default [] (A !! (if decide (rows A = 1) then 0 else r))
               !! (if decide (cols A = 1) then 0 else c)).

(** [A + B] on two-dimensional arrays, with numpy's broadcasting. *)
Definition badd (A B : list (list nat)) : result (list (list nat)) :=
  r ← bdim (rows A) (rows B);
  c ← bdim (cols A) (cols B);
  Ok ((λ i, (λ j, bget A i j + bget B i j) <$> seq 0 c) <$> seq 0 r).

(** [A.flatten()]. *)
Definition flatten {T} (A : list (list T)) : list T := mjoin A.

(** [v[idx]] with an integer index array: every index must be in range. *)
Definition take_idx {T} (v : list T) (idx : list nat) : result (list T) :=
  match mapM (λ k, v !! k) idx with
  | Some w => Ok w
  | None => Err IndexError
  end.

End Np.

(** ** Strides *)

(** [np.binary_repr(n)] for [n >= 0]: the binary digits, most significant
    first, ["0"] for zero. *)
Fixpoint pos_binary (p : positive) : string :=
  match p with
  | xH => "1"
  | xO q => pos_binary q +:+ "0"
  | xI q => pos_binary q +:+ "1"
  end.

Definition binary_repr (n : nat) : string :=
  match N.of_nat n with
  | N0 => "0"
  | Npos p => pos_binary p
  end.

(** [s.index(c)]: the position of the first [c], [ValueError] without one. *)
Fixpoint str_index (c : Ascii.ascii) (s : string) : result nat :=
  match s with
  | EmptyString => Err ValueError
  | String a t =>
      if decide (a = c) then Ok 0 else (k ← str_index c t; Ok (S k))
  end.

(** [2**np.binary_repr(i+1)[::-1].index('1')], the stride of layer [i]. *)
Definition stride (i : nat) : result nat :=
  v ← str_index "1"%char (String.rev (binary_repr (i + 1)));
  Ok (2 ^ v).

(** ** Permutation vectors *)

(** [(np.outer(1, x) + np.outer(np.arange(0, N, 2*s), 1)).flatten()] *)
Definition perm_of (N s : nat) (x : list (list nat)) : result (list nat) :=
  A ← Np.badd (Np.outer [1] (Np.flatten x))
              (Np.outer (Np.arange3 0 N (2 * s)) [1]);
  Ok (Np.flatten A).

(** [np.outer(np.arange(s),1)+np.array([[0,s]])] *)
Definition x_in (s : nat) : result (list (list nat)) :=
  Np.badd (Np.outer (Np.arange s) [1]) [[0; s]].

(** [np.outer(1,np.arange(0,2*s,2))+np.array([[0],[1]])] *)
Definition x_out (s : nat) : result (list (list nat)) :=
  Np.badd (Np.outer [1] (Np.arange3 0 (2 * s) 2)) [[0]; [1]].

(** The list comprehension of lines 47-48 and 75-76: the pair [(p1, p2)]. *)
Definition perm_pair (N s : nat) : result (list nat * list nat) :=
  x1 ← x_in s;
  x2 ← x_out s;
  p1 ← perm_of N s x1;
  p2 ← perm_of N s x2;
  Ok (p1, p2).

Definition layer_perms (N i : nat) : result (list nat * list nat) :=
  s ← stride i;
  perm_pair N s.


(** ** Generic array helpers *)

Section Arrays.
Context {T : Type}.

(** [v[k]] with an integer [k >= 0]. *)
Definition item (v : list T) (k : nat) : result T :=
  match v !! k with
  | Some x => Ok x
  | None => Err IndexError
  end.

(** [v[::2]] and [v[1::2]]. *)
Fixpoint evens (v : list T) : list T :=
  match v with
  | [] => []
  | x :: w => x :: match w with [] => [] | _ :: u => evens u end
  end.
Definition odds (v : list T) : list T := evens (tail v).

(** [A.T] for a two-dimensional array (a list of rows of one length). *)
Definition transpose (A : list (list T)) : list (list T) :=
  (λ j, omap (λ row, row !! j) A) <$> seq 0 (length (default [] (head A))).

(** [l[i:i+2] = [a, b]] on a Python list, for [i <= len(l)]. *)
Definition slice_assign2 (i : nat) (a b : T) (l : list T) : list T :=
  take i l ++ [a; b] ++ drop (i + 2) l.

(** [np.diag(A)] of a two-dimensional array. *)
Definition diag (A : list (list T)) : list T :=
  omap (λ k, row ← A !! k; row !! k) (seq 0 (length A)).

End Arrays.

(** Monadic map and left fold in [result]: list comprehensions and [for]
    loops whose body may raise. *)
Fixpoint mapR {A B} (f : A → result B) (l : list A) : result (list B) :=
  match l with
  | [] => Ok []
  | a :: l' => b ← f a; bs ← mapR f l'; Ok (b :: bs)
  end.

Fixpoint for_each {A S} (body : A → S → result S) (l : list A) (st : S)
  : result S :=
  match l with
  | [] => Ok st
  | a :: l' => st' ← body a st; for_each body l' st'
  end.

(** Element-wise binary operation with numpy's broadcasting along one axis:
    equal extents, or one operand has extent 1 and is repeated. *)
Definition bzip {A B D} (f : A → B → result D) (u : list A) (v : list B)
  : result (list D) :=
  if decide (length u = length v) then mapR (λ p, f p.1 p.2) (zip u v)
  else match u, v with
       | [a], _ => mapR (f a) v
       | _, [b] => mapR (λ a, f a b) u
       | _, _ => Err ValueError
       end.

Definition bzip1 {A B D} (f : A → B → D) : list A → list B → result (list D) :=
  bzip (λ a b, Ok (f a b)).
Definition bzip2 {A B D} (f : A → B → D) := bzip (bzip1 f).
Definition bzip3 {A B D} (f : A → B → D) := bzip (bzip2 f).

(** The right-hand side of an in-place assignment is broadcast to the shape
    of the target; a result of another extent is a [ValueError]. *)
Definition into {A} (target : list A) (r : result (list A)) : result (list A) :=
  w ← r;
  if decide (length w = length target) then Ok w else Err ValueError.

(** [v[:] = w] on a one-dimensional array. *)
Definition assign_all {A} (v w : list A) : result (list A) :=
  into v (bzip1 (λ _ x, x) v w).

(** [A[:] = B] on two-dimensional arrays, row by row. *)
Definition assign_all2 {A} (X Y : list (list A)) : result (list (list A)) :=
  into X (bzip (λ r1 r2, into r1 (bzip1 (λ _ x, x) r1 r2)) X Y).

(** An n-dimensional array given by its shape and row-major data; a Python
    scalar has the empty shape. *)
Record ndarray (T : Type) := NdArray { nd_shape : list nat; nd_data : list T }.
Arguments NdArray {T} _ _.
Arguments nd_shape {T} _.
Arguments nd_data {T} _.

(** ** The interfaces the constructor is written against *)

(** numpy's float64 and complex128 scalars with the operations the source
    applies to them, and [numpy.linalg.svd]. *)
Class Scalars := {
  R : Type;
  C : Type;
  r0 : R;                       (* 0. *)
  c0 : C;                       (* 0j, the entries of np.zeros *)
  c1j : C;                      (* 1j *)
  of_real : R → C;              (* a float used where a complex is expected *)
  cadd : C → C → C;
  cmul : C → C → C;
  cdiv : C → C → C;
  cconj : C → C;
  cexp : C → C;                 (* np.exp *)
  angle : C → R;                (* np.angle *)
  svd : list (list C) → result (list (list C) * list R * list (list C));
}.

(** The crossing object [X].  Its class is declared in
    [meshes/crossing.py]; the record has what the constructor uses of it:
    the test [isinstance(X, MZICrossing)] and the methods [T] and [Tsolve].
    Both methods can be given the splitter imperfections as a further
    argument, which lines 79-80 leave out: [None] stands for an argument
    left to its default.  [Tsolve] returns a tuple whose first component
    holds the solved parameters, one row per phase parameter. *)
Record Crossing `{Scalars} := {
  is_MZICrossing : bool;
  T : list (list R) → option (ndarray R) → result (list (list (list C)));
  Tsolve : list C * list C → string → option (ndarray R)
           → result (list (list R) * list R);
}.

(** The calls made on the crossing object, in the order they are made. *)
Inductive call `{Scalars} :=
  | CallTsolve (target : list C * list C) (ind : string)
               (p_splitter : option (ndarray R))
  | CallT (p_phase : list (list R)) (p_splitter : option (ndarray R)).

Abbreviation matrix := (list (list C)).
(** [Dij[a][b][i][j]], shape [(2, 2, N-1, N//2)]. *)
Abbreviation tensor4 := (list (list (list (list C)))).

Section Butterfly.
Context `{Sc : Scalars}.


(** *** Matrix operations of [configButterfly] *)

Definition vdot (u v : list C) : result C :=
  if decide (length u = length v)
  then Ok (foldl cadd c0 (zip_with cmul u v))
  else Err ValueError.

(** [A.dot(B)] *)
Definition dot (A B : matrix) : result matrix :=
  mapR (λ row, mapR (vdot row) (transpose B)) A.

(** [A.T.conj()] *)
Definition ctranspose (A : matrix) : matrix :=
  (λ row : list C, cconj <$> row) <$> transpose A.

(** *** Views of [Dij] *)

(** A basic-slice view [Dij[:, :, l0:l1, j0:j1]] of the array allocated
    by the constructor: it shares the data, so a write through the view
    is a write to [Dij]. *)
Record view := View { v_l0 : nat; v_l1 : nat; v_j0 : nat; v_j1 : nat }.

(** [w[:, :, :h, :q]] and the three other quadrant slices; numpy clips a
    slice bound to the extent of the axis. *)
Definition lo (a b k : nat) : nat * nat := (a, a + k `min` (b - a)).
Definition hi (a b k : nat) : nat * nat := (a + k `min` (b - a), b).
Definition sub (w : view) (layers crossings : nat → nat → nat → nat * nat)
           (h q : nat) : view :=
  let '(l0, l1) := layers (v_l0 w) (v_l1 w) h in
  let '(j0, j1) := crossings (v_j0 w) (v_j1 w) q in
  View l0 l1 j0 j1.

(** [l[k] = f(l[k])] *)
Definition update_at {A} (l : list A) (k : nat) (f : A → result A)
  : result (list A) :=
  x ← item l k; y ← f x; Ok (<[k := y]> l).

(** [w[a, b, k, :] = vec] *)
Definition write_row (D : tensor4) (w : view) (a b k : nat) (vec : list C)
  : result tensor4 :=
  if decide (v_l0 w + k < v_l1 w) then
    update_at D a (λ Da, update_at Da b (λ Dab,
      update_at Dab (v_l0 w + k) (λ row,
        let width := v_j1 w - v_j0 w in
        new ← assign_all (take width (drop (v_j0 w) row)) vec;
        Ok (take (v_j0 w) row ++ new ++ drop (v_j0 w + width) row))))
  else Err IndexError.

(** [w[:, :, 0, 0] = U] *)
Definition write_block (D : tensor4) (w : view) (U : matrix)
  : result tensor4 :=
  if decide (v_l0 w < v_l1 w ∧ v_j0 w < v_j1 w) then
    cur ← mapR (mapR (λ Dab, row ← item Dab (v_l0 w); item row (v_j0 w))) D;
    new ← assign_all2 cur U;
    Ok (zip_with (zip_with (λ Dab x, alter (<[v_j0 w := x]>) (v_l0 w) Dab))
          D new)
  else Err IndexError.

(** *** The recursive block decomposition (lines 58-68)

    The recursion is on [len(U)], which halves at every level when [svd]
    returns factors of the size of its argument; [fuel] bounds the depth,
    and running out of it is Python's [RecursionError]. *)

Fixpoint configButterfly (fuel : nat) (U : matrix) (w : view) (D : tensor4)
  : result tensor4 :=
  match fuel with
  | 0 => Err RecursionError
  | S fuel' =>
    let N := length U in
    if decide (2 < N) then
      let h := N `div` 2 in
      let q := N `div` 4 in
      let U11 := take h <$> take h U in
      let U12 := drop h <$> take h U in
      let U21 := take h <$> drop h U in
      let U22 := drop h <$> drop h U in
      '(V1, D11, W1) ← svd U11;
      '(V2, D22, W2) ← svd U22;
      D ← write_row D w 0 0 (h - 1) (of_real <$> D11);
      A ← dot (ctranspose V1) U12;
      A ← dot A (ctranspose W2);
      D ← write_row D w 0 1 (h - 1) (diag A);
      D ← write_row D w 1 1 (h - 1) (of_real <$> D22);
      B ← dot (ctranspose V2) U21;
      B ← dot B (ctranspose W1);
      D ← write_row D w 1 0 (h - 1) (diag B);
      D ← configButterfly fuel' W1 (sub w lo lo h q) D;
      D ← configButterfly fuel' W2 (sub w lo hi h q) D;
      D ← configButterfly fuel' V1 (sub w hi lo h q) D;
      configButterfly fuel' V2 (sub w hi hi h q) D
    else write_block D w U
  end.

(** [np.zeros([2, 2, N-1, N//2], dtype=np.complex)] *)
Definition zeros4 (N : nat) : tensor4 :=
  replicate 2 (replicate 2 (replicate (N - 1) (replicate (N `div` 2) c0))).

(** Line 69.  The recursion halves the block size, so [len(M) + 1] levels
    are more than it takes. *)
Definition decompose (N : nat) (M : matrix) : result tensor4 :=
  configButterfly (S (length M)) M (View 0 (N - 1) 0 (N `div` 2)) (zeros4 N).

(** *** The mesh object *)

(** The object after [StructuredMeshNetwork.__init__]: the attributes the
    constructor goes on to use ([X], [p_crossing], [phi_out]) and the other
    arguments the container was given. *)
Record mesh := Mesh {
  m_N : nat;
  m_lens : list nat;
  m_shifts : list nat;
  m_p_phase : ndarray R;
  m_p_splitter : ndarray R;
  m_p_crossing : ndarray R;
  m_phi_out : list R;
  m_perm : list (option (list nat));
  m_X : Crossing;
  m_phi_pos : string;
}.

(** *** The phase solver (lines 72-80) *)

Record solver_state := SolverState {
  s_Dij : tensor4;
  s_p_crossing : list (list (list R));
  s_phi_out : list R;
  s_calls : list call;
}.

(** [np.exp(1j*v)] *)
Definition exp1j (v : list R) : list C :=
  (λ x, cexp (cmul c1j (of_real x))) <$> v.

(** [Dij[:, b, i, :] *= v] *)
Definition imul_port (D : tensor4) (b i : nat) (v : list C) : result tensor4 :=
  mapR (λ Da, update_at Da b (λ Dab,
    update_at Dab i (λ row, into row (bzip1 cmul row v)))) D.

(** [Dij[a, b, i]] *)
Definition port (D : tensor4) (a b i : nat) : result (list C) :=
  Da ← item D a; Dab ← item Da b; item Dab i.

(** [Dij[:, :, i]] *)
Definition layer_of (D : tensor4) (i : nat) : result (list (list (list C))) :=
  mapR (mapR (λ Dab : list (list C), item Dab i)) D.

(** [np.angle(Q)[:, 0, :].T.flatten()] *)
Definition residual (Q : list (list (list C))) : result (list R) :=
  col ← mapR (λ A : list (list C), item A 0) Q;
  Ok (Np.flatten (transpose ((λ row : list C, angle <$> row) <$> col))).

(** The body of the loop of line 73, for layer [i]. *)
Definition solve_layer (X : Crossing) (N i : nat) (st : solver_state)
  : result solver_state :=
  s ← stride i;
  '(p1, p2) ← perm_pair N s;
  g ← Np.take_idx (s_phi_out st) p1;
  phi ← assign_all (s_phi_out st) g;
  D ← imul_port (s_Dij st) 0 i (exp1j (evens phi));
  D ← imul_port D 1 i (exp1j (odds phi));
  t0 ← port D 0 0 i;
  t1 ← port D 0 1 i;
  sol ← Tsolve X (t0, t1) "T1:" None;
  old ← item (s_p_crossing st) i;
  new ← assign_all2 old (transpose sol.1);
  let pc := <[i := new]> (s_p_crossing st) in
  pci ← item pc i;
  Di ← layer_of D i;
  F ← T X pci None;
  Q ← bzip3 cdiv Di F;
  a ← residual Q;
  g ← Np.take_idx a p2;
  phi ← assign_all phi g;
  Ok (SolverState D pc phi
        (s_calls st ++ [CallTsolve (t0, t1) "T1:" None; CallT pci None])).

(** [for i in range(N-1): ...] *)
Definition phase_solver (X : Crossing) (N : nat) (st : solver_state)
  : result solver_state :=
  for_each (solve_layer X N) (Np.arange (N - 1)) st.

(** *** Lines 54-80: configuring the mesh to a target matrix *)

(** [A.reshape([d1, d2, d3])]: a view of the same data, so the writes of the
    solver reach the array of the mesh. *)
Definition reshape3 (d1 d2 d3 : nat) (A : ndarray R)
  : result (list (list (list R))) :=
  if decide (length (nd_data A) = d1 * d2 * d3) then
    Ok ((λ blk, reshape (replicate d2 d3) blk)
          <$> reshape (replicate d1 (d2 * d3)) (nd_data A))
  else Err ValueError.

(** The data of the array after the writes through the view. *)
Definition unview3 (A : ndarray R) (v : list (list (list R))) : ndarray R :=
  NdArray (nd_shape A) (mjoin (mjoin v)).

Definition configure_trace (self : mesh) (N : nat) (M : matrix)
  : result (tensor4 * solver_state) :=
  if is_MZICrossing (m_X self) then
    D ← decompose N M;
    p_crossing ← reshape3 (N - 1) (N `div` 2) 2 (m_p_crossing self);
    st ← phase_solver (m_X self) N
           (SolverState D p_crossing (m_phi_out self) []);
    Ok (D, st)
  else Err AssertionError.

Definition configure (self : mesh) (N : nat) (M : matrix) : result mesh :=
  '(_, st) ← configure_trace self N M;
  Ok (Mesh (m_N self) (m_lens self) (m_shifts self) (m_p_phase self)
           (m_p_splitter self)
           (unview3 (m_p_crossing self) (s_p_crossing st)) (s_phi_out st)
           (m_perm self) (m_X self) (m_phi_pos self)).

(** *** The constructor (lines 37-51) *)

Record args := Args {
  a_N : option nat;
  a_p_phase : ndarray R;
  a_p_splitter : ndarray R;
  a_p_crossing : option (ndarray R);
  a_phi_out : option (ndarray R);
  a_M : option matrix;
  a_X : Crossing;
  a_phi_pos : string;
}.

(** The arguments of the call [super().__init__(N, lens, shifts, ...)]. *)
Record super_args := SuperArgs {
  sa_N : nat;
  sa_lens : list nat;
  sa_shifts : list nat;
  sa_p_phase : ndarray R;
  sa_p_splitter : ndarray R;
  sa_p_crossing : option (ndarray R);
  sa_phi_out : option (ndarray R);
  sa_perm : list (option (list nat));
  sa_X : Crossing;
  sa_phi_pos : string;
}.

(** [x is None] *)
Definition is_none {A} (x : option A) : bool :=
  match x with None => true | Some _ => false end.

Definition assert (b : bool) : result unit :=
  if b then Ok () else Err AssertionError.

(** [N if N else len(M)]: [None] and [0] are both false. *)
Definition size_arg (N : option nat) (M : option matrix) : result nat :=
  match N with
  | Some (S n) => Ok (S n)
  | _ => match M with
         | Some m => Ok (length m)
         | None => Err TypeError
         end
  end.

(** [int(np.log2(N))]: the logarithm of 0 is [-inf], which [int] refuses;
    otherwise the integer part of the binary logarithm.  (The float
    logarithm is exact on the powers of two, and [2**int(...)] is a power
    of two whatever the rounding, so the assertion of line 40 holds for the
    powers of two and for no other size.) *)
Definition int_log2 (N : nat) : result nat :=
  if decide (N = 0) then Err OverflowError else Ok (Nat.log2 N).

(** Lines 37-40.  Line 41 converts [M] to complex entries, which the
    entries of [matrix] are from the start. *)
Definition check_args (a : args) : result nat :=
  _ ← assert (xorb (is_none (a_N a)) (is_none (a_M a)));
  _ ← assert (bool_decide (a_phi_pos a = "out"));
  N ← size_arg (a_N a) (a_M a);
  k ← int_log2 N;
  _ ← assert (bool_decide (N = 2 ^ k));
  Ok N.

(** Lines 44-48: [lens], [shifts] and [perm]. *)
Definition topology (N : nat)
  : result (list nat * list nat * list (option (list nat))) :=
  let lens := replicate (N - 1) (N `div` 2) in
  let shifts := replicate (N - 1) 0 in
  perm ← for_each (λ i perm,
            s ← stride i;
            '(p1, p2) ← perm_pair N s;
            Ok (slice_assign2 i (Some p1) (Some p2) perm))
          (Np.arange3 1 (N - 1) 2) (replicate N None);
  Ok (lens, shifts, perm).

(** [StructuredMeshNetwork.__init__] is defined in [meshes/mesh.py]; the
    constructor takes it as it comes. *)
Context (StructuredMeshNetwork_init : super_args → result mesh).

Definition ButterflyNetwork_init (a : args) : result mesh :=
  N ← check_args a;
  '(lens, shifts, perm) ← topology N;
  self ← StructuredMeshNetwork_init
           (SuperArgs N lens shifts (a_p_phase a) (a_p_splitter a)
                      (a_p_crossing a) (a_phi_out a) perm (a_X a)
                      (a_phi_pos a));
  match a_M a with
  | Some M => configure self N M
  | None => Ok self
  end.

End Butterfly.

(** ** A symbolic instance

    Scalars as terms: every operation builds the term that names it, so a
    run of the model on a concrete mesh shows which operations the source
    applies to which entries.  [SSolve k t0 t1] is the [k]-th parameter a
    crossing solves from the target amplitudes [t0], [t1]; [SFwd a b θ φ] is
    entry [(a, b)] of the transfer matrix of the crossing set to [(θ, φ)];
    [SSvdU A i j], [SSvdS A i] and [SSvdVh A i j] are the entries of the
    three factors of the singular value decomposition of [A]. *)
#[local] Unset Elimination Schemes.
Inductive sym : Type :=
  | SVar (name : string)
  | SZero
  | SImag
  | SOfReal (x : sym)
  | SAdd (x y : sym)
  | SMul (x y : sym)
  | SDiv (x y : sym)
  | SConj (x : sym)
  | SExp (x : sym)
  | SAngle (x : sym)
  | SSolve (k : nat) (t0 t1 : sym)
  | SFwd (a b : nat) (theta phi : sym)
  | SSvdU (A : list (list sym)) (i j : nat)
  | SSvdS (A : list (list sym)) (i : nat)
  | SSvdVh (A : list (list sym)) (i j : nat).
#[local] Set Elimination Schemes.

(** The list [[f 0; ...; f (n-1)]]. *)
Definition tab {A} (n : nat) (f : nat → A) : list A := f <$> seq 0 n.

(** The three factors of [A], entry by entry, each of the size of [A]. *)
Definition sym_svd (A : list (list sym))
  : result (list (list sym) * list sym * list (list sym)) :=
  let n := length A in
  Ok (tab n (λ i, tab n (λ j, SSvdU A i j)),
      tab n (λ i, SSvdS A i),
      tab n (λ i, tab n (λ j, SSvdVh A i j))).

Global Instance sym_scalars : Scalars := {|
  R := sym; C := sym;
  r0 := SZero; c0 := SZero; c1j := SImag;
  of_real := SOfReal;
  cadd := SAdd; cmul := SMul; cdiv := SDiv;
  cconj := SConj; cexp := SExp; angle := SAngle;
  svd := sym_svd;
|}.

(** A stand-in for the crossing: it answers every call, with one solved
    parameter pair per pair of target amplitudes and one transfer matrix per
    parameter pair. *)
Definition sym_crossing : Crossing := {|
  is_MZICrossing := true;
  T := λ p _,
    Ok (tab 2 (λ a, tab 2 (λ b,
          (λ row : list sym, SFwd a b (default SZero (row !! 0))
                                      (default SZero (row !! 1))) <$> p)));
  Tsolve := λ t _ _,
    Ok ([zip_with (SSolve 0) t.1 t.2; zip_with (SSolve 1) t.1 t.2], []);
|}.

(** A stand-in for the container, to run the constructor: it stores what it
    is given and allocates zero arrays for the parameters left out. *)
Definition sym_container (sa : super_args) : result mesh :=
  let N := sa_N sa in
  Ok (Mesh N (sa_lens sa) (sa_shifts sa) (sa_p_phase sa) (sa_p_splitter sa)
        (default (NdArray [(N - 1) * (N `div` 2); 2]
                    (replicate ((N - 1) * (N `div` 2) * 2) SZero))
                 (sa_p_crossing sa))
        (default (replicate N SZero) (nd_data <$> sa_phi_out sa))
        (sa_perm sa) (sa_X sa) (sa_phi_pos sa)).

(** The matrix of the names [Mij]. *)
Definition sym_matrix (n : nat) : list (list sym) :=
  tab n (λ i, tab n (λ j, SVar ("M" +:+ pretty i +:+ pretty j))).

(** The arguments [N] and [M], the others at their defaults. *)
Definition sym_args (N : option nat) (M : option (list (list sym))) : args :=
  Args N (NdArray [] [SZero]) (NdArray [] [SZero]) None None M sym_crossing "out".

(** Arguments with splitter imperfections and a target matrix. *)
Definition sym_args_splitter (ps : ndarray sym) (M : list (list sym)) : args :=
  Args None (NdArray [] [SZero]) ps None None (Some M) sym_crossing "out".

(** A solver state and a mesh of size [N] with named entries. *)
Definition sym_state (N : nat) : solver_state :=
  SolverState
    (tab 2 (λ a, tab 2 (λ b, tab (N - 1) (λ l, tab (N `div` 2) (λ j,
       SVar ("D" +:+ pretty a +:+ pretty b +:+ pretty l +:+ pretty j))))))
    (tab (N - 1) (λ l, tab (N `div` 2) (λ j, [SZero; SZero])))
    (tab N (λ m, SVar ("f" +:+ pretty m)))
    [].

Definition sym_mesh (N : nat) (p_splitter : ndarray sym) : mesh :=
  Mesh N (replicate (N - 1) (N `div` 2)) (replicate (N - 1) 0)
       (NdArray [] [SZero]) p_splitter
       (NdArray [(N - 1) * (N `div` 2); 2]
                (replicate ((N - 1) * (N `div` 2) * 2) SZero))
       (tab N (λ m, SVar ("f" +:+ pretty m)))
       (replicate N None) sym_crossing "out".

(** ** Notions the specification uses *)

(** [s] is the position of the lowest set bit of [n]. *)
Definition lowest_set_bit (n s : nat) : Prop :=
  Nat.testbit n s = true ∧ ∀ j, j < s → Nat.testbit n j = false.

(** [p] lists every mode of [{0, ..., N-1}] exactly once. *)
Definition bijection_on (N : nat) (p : list nat) : Prop := p ≡ₚ seq 0 N.

(** Rerouting by a permutation vector is integer-array indexing, as in
    [phi_out[p1]]; a chain of permutation vectors reroutes the modes
    [0, ..., N-1] by each vector in turn. *)
Definition compose_perms (N : nat) (ps : list (list nat)) : result (list nat) :=
  for_each (λ p v, Np.take_idx v p) ps (seq 0 N).

(** The permutation vectors of all layers in propagation order:
    [p1] and [p2] of layer 0, then of layer 1, and so on. *)
Definition all_layer_perms (N : nat) : result (list (list nat)) :=
  pairs ← mapR (layer_perms N) (Np.arange (N - 1));
  Ok (mjoin ((λ pq : list nat * list nat, [pq.1; pq.2]) <$> pairs)).

(** The entries of the list [perm] handed to the container; [None] leaves
    the modes where they are. *)
Definition perm_vectors (N : nat) (perm : list (option (list nat)))
  : list (list nat) :=
  default (seq 0 N) <$> perm.

(** The strides of the layers of a mesh of size [N]. *)
Definition strides (N : nat) : result (list nat) :=
  mapR stride (Np.arange (N - 1)).

(** Shapes of nested lists. *)
Definition shaped {A} (P : A → Prop) (n : nat) (l : list A) : Prop :=
  length l = n ∧ Forall P l.
Definition shape1 {A} (n : nat) (l : list A) : Prop := length l = n.
Definition shape2 {A} (m n : nat) : list (list A) → Prop :=
  shaped (shape1 n) m.
Definition shape3 {A} (l m n : nat) : list (list (list A)) → Prop :=
  shaped (shape2 m n) l.
Definition shape4 {A} (k l m n : nat) : list (list (list (list A))) → Prop :=
  shaped (shape3 l m n) k.

Section Specification.
Context `{Sc : Scalars}.

#[local] Instance R_inhabited : Inhabited R := populate r0.
#[local] Instance C_inhabited : Inhabited C := populate c0.

(** [Dij[a, b, l, j]] *)
Definition entry (D : tensor4) (a b l j : nat) : C := (((D !!! a) !!! b) !!! l) !!! j.

Definition tab4 (N : nat) (f : nat → nat → nat → nat → C) : tensor4 :=
  tab 2 (λ a, tab 2 (λ b, tab (N - 1) (λ l, tab (N `div` 2) (f a b l)))).

(** The state the solver works on is well shaped for a mesh of size [N]. *)
Definition state_ok (N : nat) (st : solver_state) : Prop :=
  shape4 2 2 (N - 1) (N `div` 2) (s_Dij st)
  ∧ shape3 (N - 1) (N `div` 2) 2 (s_p_crossing st)
  ∧ shape1 N (s_phi_out st).

(** The crossing answers every call the solver makes on [n] crossings at a
    time, with arrays of the right shape. *)
Definition crossing_ok (X : Crossing) (n : nat) : Prop :=
  (∀ t0 t1, length t0 = n → length t1 = n →
     ∃ pp e, Tsolve X (t0, t1) "T1:" None = Ok (pp, e) ∧ shape2 2 n pp)
  ∧ (∀ p, shape2 n 2 p → ∃ F, T X p None = Ok F ∧ shape3 2 2 n F).

(** What the two calls return, as total functions. *)
Definition solved (X : Crossing) (t : list C * list C) : list (list R) :=
  match Tsolve X t "T1:" None with
  | Ok (pp, _) => pp
  | Err _ => []
  end.
Definition forward (X : Crossing) (p : list (list R)) : list (list (list C)) :=
  match T X p None with
  | Ok F => F
  | Err _ => []
  end.
Definition perms_of (N i : nat) : list nat * list nat :=
  match layer_perms N i with
  | Ok pq => pq
  | Err _ => ([], [])
  end.

(** The phases output port [b] absorbs: [exp(1j*phi)] of the even entries
    of [phi] for port 0, of the odd entries for port 1. *)
Definition port_phases (b : nat) (phi : list R) : list C :=
  exp1j (if decide (b = 0) then evens phi else odds phi).

(** Step 1: [phi_out] permuted by the first permutation vector. *)
Definition spec_permute (p : list nat) (phi : list R) : list R :=
  (λ k, phi !!! k) <$> p.

(** Step 2: at layer [i], the amplitudes of output port 0 are multiplied by
    [exp(1j*phi)] of the even entries of [phi], those of output port 1 by
    that of the odd entries; the other layers are left alone. *)
Definition spec_absorb (N i : nat) (phi : list R) (D : tensor4) : tensor4 :=
  tab4 N (λ a b l j,
    if decide (l = i)
    then cmul (entry D a b l j) (cexp (cmul c1j (of_real (phi !!! (2 * j + b)))))
    else entry D a b l j).

(** Step 3: the parameters of layer [i] are those the crossing solves from
    the amplitudes [Dij[0, 0, i]] and [Dij[0, 1, i]] in the mode ["T1:"]:
    crossing [j] gets the [j]-th entry of each solved parameter. *)
Definition spec_target (D : tensor4) (i : nat) : list C * list C :=
  (((D !!! 0) !!! 0) !!! i, ((D !!! 0) !!! 1) !!! i).

Definition spec_params (X : Crossing) (N i : nat) (D : tensor4)
           (pc : list (list (list R))) : list (list (list R)) :=
  let pp := solved X (spec_target D i) in
  <[i := tab (N `div` 2) (λ j, [(pp !!! 0) !!! j; (pp !!! 1) !!! j])]> pc.

(** Step 4: the phase of [Dij] over the forward transfer matrix of the
    solved crossings, for output port 0 and input port [a] of crossing [j]
    at position [2*j + a], rerouted by the second permutation vector. *)
Definition spec_residual (X : Crossing) (i : nat) (p : list nat) (D : tensor4)
           (pc : list (list (list R))) : list R :=
  let F := forward X (pc !!! i) in
  (λ k, angle (cdiv (entry D (k `mod` 2) 0 i (k `div` 2))
                    (((F !!! (k `mod` 2)) !!! 0) !!! (k `div` 2)))) <$> p.

(** The four steps of layer [i], in sequence. *)
Definition spec_layer (X : Crossing) (N : nat) (st : solver_state) (i : nat)
  : solver_state :=
  let '(p1, p2) := perms_of N i in
  let phi := spec_permute p1 (s_phi_out st) in
  let D := spec_absorb N i phi (s_Dij st) in
  let pc := spec_params X N i D (s_p_crossing st) in
  let phi' := spec_residual X i p2 D pc in
  SolverState D pc phi'
    (s_calls st ++ [CallTsolve (spec_target D i) "T1:" None;
                    CallT (pc !!! i) None]).

(** The layers in increasing order, from layer 0 to layer [N-2]. *)
Definition spec_phase_solver (X : Crossing) (N : nat) (st : solver_state)
  : solver_state :=
  foldl (spec_layer X N) st (seq 0 (N - 1)).

End Specification.

(** The list [perm] has one entry per layer and one for the output, each
    a bijection. *)
Definition perm_ok (N : nat) (perm : list (option (list nat))) : Prop :=
  length perm = N ∧ Forall (bijection_on N) (perm_vectors N perm).

(** A call leaves the splitter imperfections out. *)
Definition omits_splitter `{Scalars} (c : call) : Prop :=
  match c with
  | CallTsolve _ _ ps => ps = None
  | CallT _ ps => ps = None
  end.

(** The mesh with another array of splitter imperfections. *)
Definition with_p_splitter `{Scalars} (ps : ndarray R) (self : mesh) : mesh :=
  Mesh (m_N self) (m_lens self) (m_shifts self) (m_p_phase self) ps
       (m_p_crossing self) (m_phi_out self) (m_perm self) (m_X self)
       (m_phi_pos self).

(** The two arrays the configuration computes. *)
Definition outputs `{Scalars} (r : result mesh) : result (ndarray R * list R) :=
  m ← r; Ok (m_p_crossing m, m_phi_out m).

(** ** Closed forms *)

(** The number of trailing zero bits. *)
Fixpoint trailing_zeros (p : positive) : nat :=
  match p with
  | xO q => S (trailing_zeros q)
  | _ => 0
  end.

(** Entry [m] of the first and of the second permutation vector of a layer
    of stride [s]: within the block of [2*s] modes that holds [m], the first
    vector sends the pair [(2*a, 2*a+1)] to [(a, a+s)], the second one
    sends it back. *)
Definition route_in (s m : nat) : nat :=
  (m `mod` (2 * s)) `div` 2 + ((m `mod` (2 * s)) `mod` 2) * s
  + (m `div` (2 * s)) * (2 * s).
Definition route_out (s m : nat) : nat :=
  2 * ((m `mod` (2 * s)) `mod` s) + (m `mod` (2 * s)) `div` s
  + (m `div` (2 * s)) * (2 * s).

(** ** Notions for the further properties *)

(** [svd] answers on every square matrix, with factors of the size of the
    matrix, as [numpy.linalg.svd] does. *)
Definition svd_ok `{Scalars} : Prop :=
  ∀ (n : nat) (A : matrix), shape2 n n A →
    ∃ V D W, svd A = Ok (V, D, W)
             ∧ shape2 n n V ∧ length D = n ∧ shape2 n n W.

(** The part of [Dij] that the decomposition of an [n]×[n] block, called
    on the view [w], is to fill: the first [n-1] layers of the view and
    all its crossings. *)
Definition in_block (w : view) (n l j : nat) : Prop :=
  v_l0 w ≤ l < v_l0 w + (n - 1) ∧ v_j0 w ≤ j < v_j1 w.

(** The view [w] of an array of [L] layers and [J] crossings has room for
    the amplitudes of an [n]×[n] block: at least [n-1] layers and exactly
    [n/2] crossings. *)
Definition view_ok (L J n : nat) (w : view) : Prop :=
  v_l0 w + (n - 1) ≤ v_l1 w ∧ v_l1 w ≤ L
  ∧ v_j0 w + n `div` 2 = v_j1 w ∧ v_j1 w ≤ J.

#[global] Instance in_block_dec (w : view) (n l j : nat) :
  Decision (in_block w n l j) := and_dec _ _.

(** A crossing that is not an [MZICrossing], arguments with a crossing and
    a [phi_pos] of choice, and crossing parameters with named entries, to
    run the constructor and the solver on. *)
Definition sym_other_crossing : Crossing := {|
  is_MZICrossing := false;
  T := T sym_crossing;
  Tsolve := Tsolve sym_crossing;
|}.

Definition sym_args_with (N : option nat) (M : option (list (list sym)))
           (X : Crossing) (phi_pos : string) : args :=
  Args N (NdArray [] [SZero]) (NdArray [] [SZero]) None None M X phi_pos.

Definition sym_params (N : nat) : list (list (list sym)) :=
  tab (N - 1) (λ l, tab (N `div` 2) (λ j,
    [SVar ("t" +:+ pretty l +:+ pretty j); SVar ("p" +:+ pretty l +:+ pretty j)])).

(** * Properties *)

(** ** Strides *)

Lemma rev_app_app (s1 s2 acc : string) :
  String.rev_app (s1 +:+ s2) acc = String.rev_app s2 (String.rev_app s1 acc).
Proof.
  revert acc. induction s1 as [|a s1 IH]; intros acc; simpl; [done|].
  apply IH.
Qed.

Lemma rev_snoc (s : string) (c : ascii) :
  String.rev (s +:+ String c EmptyString) = String c (String.rev s).
Proof. unfold String.rev. by rewrite rev_app_app. Qed.

Lemma str_index_rev_binary (p : positive) :
  str_index "1"%char (String.rev (pos_binary p)) = Ok (trailing_zeros p).
Proof.
  induction p as [q IH|q IH|]; simpl.
  - by rewrite rev_snoc.
  - rewrite rev_snoc. simpl. by rewrite IH.
  - done.
Qed.

Lemma stride_eq (i : nat) :
  stride i = Ok (2 ^ trailing_zeros (Pos.of_succ_nat i)).
Proof.
  unfold stride, binary_repr. rewrite Nat.add_1_r.
  change (N.of_nat (S i)) with (Npos (Pos.of_succ_nat i)). cbv beta iota.
  by rewrite str_index_rev_binary.
Qed.

Lemma pos_factor (p : positive) :
  ∃ t, Pos.to_nat p = 2 ^ trailing_zeros p * (2 * t + 1).
Proof.
  induction p as [q _|q [t IH]|].
  - exists (Pos.to_nat q). rewrite Pos2Nat.inj_xI. simpl. lia.
  - exists t. rewrite Pos2Nat.inj_xO, IH. simpl. lia.
  - exists 0. done.
Qed.

Lemma lowest_set_bit_factor (v t : nat) :
  lowest_set_bit (2 ^ v * (2 * t + 1)) v.
Proof.
  split.
  - rewrite Nat.mul_comm, Nat.mul_pow2_bits_high, Nat.sub_diag by done.
    apply Nat.testbit_odd_0.
  - intros j Hj. rewrite Nat.mul_comm. by apply Nat.mul_pow2_bits_low.
Qed.

Lemma lowest_set_bit_unique (n s s' : nat) :
  lowest_set_bit n s → lowest_set_bit n s' → s = s'.
Proof.
  intros [H1 L1] [H2 L2].
  destruct (Nat.lt_trichotomy s s') as [H|[H|H]]; [|done|].
  - rewrite (L2 s H) in H1. done.
  - rewrite (L1 s' H) in H2. done.
Qed.

Lemma stride_factor (i : nat) :
  ∃ v t, stride i = Ok (2 ^ v) ∧ i + 1 = 2 ^ v * (2 * t + 1).
Proof.
  destruct (pos_factor (Pos.of_succ_nat i)) as [t Ht].
  exists (trailing_zeros (Pos.of_succ_nat i)), t. split; [apply stride_eq|].
  rewrite <- Ht, SuccNat2Pos.id_succ. lia.
Qed.

Lemma stride_lowest (i : nat) :
  ∃ v, lowest_set_bit (i + 1) v ∧ stride i = Ok (2 ^ v).
Proof.
  destruct (stride_factor i) as (v & t & Hs & Hi).
  exists v. split; [|done]. rewrite Hi. apply lowest_set_bit_factor.
Qed.

(** A layer of a mesh of size [2^k] has a stride [2^v] with [v < k], so that
    the blocks of [2*s] modes tile the [2^k] modes. *)
Lemma stride_in_mesh (k i : nat) :
  i + 2 ≤ 2 ^ k →
  ∃ v, stride i = Ok (2 ^ v) ∧ lowest_set_bit (i + 1) v ∧ v < k.
Proof.
  intros Hi. destruct (stride_factor i) as (v & t & Hs & Hf).
  exists v. split; [done|]. split.
  { rewrite Hf. apply lowest_set_bit_factor. }
  apply (Nat.pow_lt_mono_r_iff 2); [lia|]. nia.
Qed.

(** ** The numpy operations of the permutation vectors *)

Lemma bind_Ok {A B} (a : A) (f : A → result B) : (Ok a ≫= f) = f a.
Proof. done. Qed.

Lemma tab_lookup {A} (n i : nat) (f : nat → A) :
  i < n → tab n f !! i = Some (f i).
Proof.
  intros Hi. unfold tab. by rewrite list_lookup_fmap, lookup_seq_lt.
Qed.

Lemma tab_length {A} (n : nat) (f : nat → A) : length (tab n f) = n.
Proof. unfold tab. by rewrite length_fmap, length_seq. Qed.

(** A list read position by position. *)
Lemma tab_fmap {A B} (l : list A) (g : A → B) (h : nat → B) :
  (∀ i x, l !! i = Some x → h i = g x) →
  tab (length l) h = g <$> l.
Proof.
  intros H. apply list_eq. intros i. rewrite list_lookup_fmap.
  destruct (l !! i) as [x|] eqn:Hx; simpl.
  - rewrite tab_lookup by eauto using lookup_lt_Some. f_equal. eauto.
  - apply lookup_ge_None. rewrite tab_length. by apply lookup_ge_None.
Qed.

Lemma tab_ext {A} (n : nat) (f g : nat → A) :
  (∀ i, i < n → f i = g i) → tab n f = tab n g.
Proof.
  intros H. unfold tab. apply list_fmap_ext. intros i x Hx.
  apply lookup_seq in Hx as [-> ?]. auto.
Qed.

Lemma arange_seq (n : nat) : Np.arange n = seq 0 n.
Proof.
  unfold Np.arange, Np.arange3.
  replace ((n - 0 + (1 - 1)) `div` 1) with n by (rewrite Nat.div_1_r; lia).
  rewrite <- (list_fmap_id (seq 0 n)) at 2. apply list_fmap_ext. intros; simpl; lia.
Qed.

Lemma arange3_multiple (r step : nat) :
  0 < step → Np.arange3 0 (r * step) step = (λ k, k * step) <$> seq 0 r.
Proof.
  intros Hs. unfold Np.arange3.
  replace ((r * step - 0 + (step - 1)) `div` step) with r.
  - apply list_fmap_ext. intros; simpl; lia.
  - apply (Nat.div_unique _ step r (step - 1)); lia.
Qed.

Lemma bget_col (u : list nat) (i j a : nat) :
  u !! i = Some a → Np.bget ((λ a, [a]) <$> u) i j = a.
Proof.
  intros Hu. unfold Np.bget, Np.rows, Np.cols.
  assert (Hi : i < length u) by eauto using lookup_lt_Some.
  rewrite length_fmap.
  replace (if decide (length u = 1) then 0 else i) with i
    by (case_decide; lia).
  rewrite list_lookup_fmap, Hu. simpl.
  destruct u; [done|]. simpl. done.
Qed.

Lemma bget_row (v : list nat) (i j b : nat) :
  v !! j = Some b → Np.bget [v] i j = b.
Proof.
  intros Hv. unfold Np.bget, Np.rows, Np.cols. simpl.
  assert (Hj : j < length v) by eauto using lookup_lt_Some.
  replace (if decide (length v = 1) then 0 else j) with j
    by (case_decide; lia).
  by rewrite Hv.
Qed.

Lemma bdim_1_r (n : nat) : Np.bdim n 1 = Ok n.
Proof. unfold Np.bdim. repeat case_decide; by subst. Qed.

Lemma bdim_1_l (n : nat) : Np.bdim 1 n = Ok n.
Proof. unfold Np.bdim. repeat case_decide; by subst. Qed.

(** A column plus a row: the table of all sums. *)
Lemma badd_col_row (u v : list nat) :
  u ≠ [] →
  Np.badd ((λ a, [a]) <$> u) [v] = Ok ((λ a, (λ b, a + b) <$> v) <$> u).
Proof.
  intros Hu. unfold Np.badd.
  assert (Np.cols ((λ a, [a]) <$> u) = 1) as -> by by destruct u.
  unfold Np.rows at 1 2. rewrite length_fmap. simpl length.
  rewrite bdim_1_r. unfold Np.cols at 1. simpl. rewrite bdim_1_l. simpl.
  f_equal. apply (tab_fmap u). intros i a Ha.
  apply (tab_fmap v). intros j b Hb.
  by rewrite (bget_col u i j a), (bget_row v i j b).
Qed.

Lemma badd_row_col (v u : list nat) :
  u ≠ [] →
  Np.badd [v] ((λ a, [a]) <$> u) = Ok ((λ a, (λ b, b + a) <$> v) <$> u).
Proof.
  intros Hu. unfold Np.badd.
  assert (Np.cols ((λ a, [a]) <$> u) = 1) as -> by by destruct u.
  unfold Np.rows at 1 2. rewrite length_fmap. simpl length.
  rewrite bdim_1_l. unfold Np.cols at 1. simpl. rewrite bdim_1_r. simpl.
  f_equal. apply (tab_fmap u). intros i a Ha.
  apply (tab_fmap v). intros j b Hb.
  by rewrite (bget_col u i j a), (bget_row v i j b).
Qed.

Lemma outer_col (u : list nat) : Np.outer u [1] = (λ a, [a]) <$> u.
Proof.
  unfold Np.outer. apply list_fmap_ext. intros; simpl. f_equal. lia.
Qed.

Lemma outer_row (v : list nat) : Np.outer [1] v = [v].
Proof.
  unfold Np.outer. simpl. f_equal.
  rewrite <- (list_fmap_id v) at 2. apply list_fmap_ext. intros; simpl. lia.
Qed.

Lemma seq_nonempty (n : nat) : 0 < n → seq 0 n ≠ [].
Proof. destruct n; [lia|done]. Qed.

Lemma x_in_eq (s : nat) :
  0 < s → x_in s = Ok ((λ a, [a; a + s]) <$> seq 0 s).
Proof.
  intros Hs. unfold x_in. rewrite arange_seq, outer_col.
  rewrite badd_col_row by by apply seq_nonempty. f_equal.
  apply list_fmap_ext. intros; simpl. f_equal. lia.
Qed.

Lemma x_out_eq (s : nat) :
  x_out s = Ok [(λ k, 2 * k) <$> seq 0 s; (λ k, 2 * k + 1) <$> seq 0 s].
Proof.
  unfold x_out. rewrite outer_row.
  replace (2 * s) with (s * 2) by lia. rewrite arange3_multiple by lia.
  rewrite (badd_row_col _ [0; 1]) by done. simpl. f_equal.
  rewrite <- !list_fmap_compose.
  f_equal; [|f_equal]; apply list_fmap_ext; intros; simpl; lia.
Qed.

Lemma perm_of_eq (s r : nat) (x : list (list nat)) :
  0 < s → 0 < r →
  perm_of (r * (2 * s)) s x
  = Ok (mjoin ((λ k, (λ b, b + k * (2 * s)) <$> mjoin x) <$> seq 0 r)).
Proof.
  intros Hs Hr. unfold perm_of, Np.flatten.
  rewrite outer_row, outer_col, arange3_multiple by lia.
  rewrite badd_row_col.
  2:{ intros H. apply fmap_nil_inv in H. by apply seq_nonempty in H. }
  simpl. by rewrite <- list_fmap_compose.
Qed.

(** Position [m] of [r] blocks of width [w], block [k] being [xs] shifted
    by [k*w]. *)
Lemma blocks_lookup (r w m : nat) (xs : list nat) :
  length xs = w → m < r * w →
  mjoin ((λ k, (λ b, b + k * w) <$> xs) <$> seq 0 r) !! m
  = (λ b, b + (m `div` w) * w) <$> xs !! (m `mod` w).
Proof.
  intros Hw Hm.
  assert (0 < w) by (destruct w; lia).
  pose proof (Nat.div_mod_eq m w) as Hdm.
  pose proof (Nat.mod_upper_bound m w ltac:(lia)) as Hlt.
  assert (m `div` w < r) as Hk by (apply Nat.Div0.div_lt_upper_bound; lia).
  destruct (lookup_lt_is_Some_2 xs (m `mod` w) ltac:(lia)) as [b Hb].
  rewrite Hb. simpl.
  rewrite Hdm at 1. rewrite (Nat.mul_comm w).
  apply (join_lookup_Some_same_length' w).
  - apply Forall_fmap, Forall_forall. intros k _. simpl. by rewrite length_fmap.
  - done.
  - eexists. split.
    + rewrite list_lookup_fmap, lookup_seq_lt by done. done.
    + by rewrite list_lookup_fmap, Hb.
Qed.

Lemma x_in_flat (s j : nat) :
  j < 2 * s →
  mjoin ((λ a, [a; a + s]) <$> seq 0 s) !! j
  = Some (j `div` 2 + (j `mod` 2) * s).
Proof.
  intros Hj.
  pose proof (Nat.div_mod_eq j 2) as Hdm.
  pose proof (Nat.mod_upper_bound j 2 ltac:(lia)) as Hlt.
  rewrite Hdm at 1. rewrite (Nat.mul_comm 2).
  apply (join_lookup_Some_same_length' 2); [|done|].
  - apply Forall_fmap, Forall_forall. by intros k _.
  - eexists. split.
    + rewrite list_lookup_fmap, lookup_seq_lt by lia. done.
    + destruct (j `mod` 2) as [|[|?]]; simpl; [f_equal; lia|f_equal; lia|lia].
Qed.

Lemma x_in_flat_length (s : nat) :
  length (mjoin ((λ a, [a; a + s]) <$> seq 0 s)) = 2 * s.
Proof.
  rewrite length_join, <- list_fmap_compose.
  rewrite (sum_list_fmap_same 2) by (apply Forall_forall; by intros).
  rewrite length_seq. lia.
Qed.

Lemma x_out_flat (s j : nat) :
  0 < s → j < 2 * s →
  mjoin [(λ k, 2 * k) <$> seq 0 s; (λ k, 2 * k + 1) <$> seq 0 s] !! j
  = Some (2 * (j `mod` s) + j `div` s).
Proof.
  intros Hs Hj. simpl. rewrite app_nil_r.
  destruct (decide (j < s)) as [Hlt|Hge].
  - rewrite lookup_app_l by by rewrite length_fmap, length_seq.
    rewrite list_lookup_fmap, lookup_seq_lt by done. simpl.
    rewrite Nat.mod_small, Nat.div_small by done. f_equal. lia.
  - rewrite lookup_app_r by (rewrite length_fmap, length_seq; lia).
    rewrite length_fmap, length_seq.
    rewrite list_lookup_fmap, lookup_seq_lt by lia. simpl.
    replace (j `mod` s) with (j - s)
      by (apply (Nat.mod_unique _ s 1); lia).
    replace (j `div` s) with 1
      by (apply (Nat.div_unique _ s 1 (j - s)); lia).
    f_equal; lia.
Qed.

Lemma x_out_flat_length (s : nat) :
  length (mjoin [(λ k, 2 * k) <$> seq 0 s; (λ k, 2 * k + 1) <$> seq 0 s])
  = 2 * s.
Proof. simpl. rewrite !length_app, !length_fmap, !length_seq. simpl. lia. Qed.

Lemma blocks_length (r w : nat) (xs : list nat) :
  length xs = w →
  length (mjoin ((λ k, (λ b, b + k * w) <$> xs) <$> seq 0 r)) = r * w.
Proof.
  intros Hw. rewrite length_join, <- list_fmap_compose.
  rewrite (sum_list_fmap_same w).
  - by rewrite length_seq.
  - apply Forall_forall. intros k _. simpl. by rewrite length_fmap.
Qed.

(** ** Routing arithmetic *)

Lemma route_in_decompose (s m : nat) :
  0 < s →
  ∃ k a b, a < s ∧ b < 2 ∧ m = k * (2 * s) + (2 * a + b)
           ∧ route_in s m = k * (2 * s) + (a + b * s).
Proof.
  intros Hs. unfold route_in.
  pose proof (Nat.div_mod_eq m (2 * s)) as Hm.
  pose proof (Nat.mod_upper_bound m (2 * s) ltac:(lia)) as Hj.
  set (j := m `mod` (2 * s)) in *. set (k := m `div` (2 * s)) in *.
  pose proof (Nat.div_mod_eq j 2) as Hj2.
  pose proof (Nat.mod_upper_bound j 2 ltac:(lia)) as Hb.
  exists k, (j `div` 2), (j `mod` 2). repeat split; [lia|lia|lia|lia].
Qed.

Lemma route_out_decompose (s m : nat) :
  0 < s →
  ∃ k a b, a < s ∧ b < 2 ∧ m = k * (2 * s) + (a + b * s)
           ∧ route_out s m = k * (2 * s) + (2 * a + b).
Proof.
  intros Hs. unfold route_out.
  pose proof (Nat.div_mod_eq m (2 * s)) as Hm.
  pose proof (Nat.mod_upper_bound m (2 * s) ltac:(lia)) as Hj.
  set (j := m `mod` (2 * s)) in *. set (k := m `div` (2 * s)) in *.
  pose proof (Nat.div_mod_eq j s) as Hj2.
  pose proof (Nat.mod_upper_bound j s ltac:(lia)) as Hb.
  exists k, (j `mod` s), (j `div` s). repeat split; [lia|nia|nia|lia].
Qed.

Lemma route_in_block (s k a b : nat) :
  a < s → b < 2 → route_in s (k * (2 * s) + (2 * a + b)) = k * (2 * s) + (a + b * s).
Proof.
  intros Ha Hb. unfold route_in.
  assert (Hj : 2 * a + b < 2 * s) by lia.
  rewrite (Nat.add_comm (k * _)), Nat.Div0.mod_add, Nat.div_add by lia.
  rewrite (Nat.mod_small _ _ Hj), (Nat.div_small _ _ Hj).
  replace ((2 * a + b) `div` 2) with a by (apply (Nat.div_unique _ 2 a b); lia).
  replace ((2 * a + b) `mod` 2) with b by (apply (Nat.mod_unique _ 2 a b); lia).
  lia.
Qed.

Lemma route_out_block (s k a b : nat) :
  a < s → b < 2 → route_out s (k * (2 * s) + (a + b * s)) = k * (2 * s) + (2 * a + b).
Proof.
  intros Ha Hb. unfold route_out.
  assert (Hj : a + b * s < 2 * s) by nia.
  rewrite (Nat.add_comm (k * _)), Nat.Div0.mod_add, Nat.div_add by lia.
  rewrite (Nat.mod_small _ _ Hj), (Nat.div_small _ _ Hj).
  replace ((a + b * s) `div` s) with b by (apply (Nat.div_unique _ s b a); lia).
  replace ((a + b * s) `mod` s) with a by (apply (Nat.mod_unique _ s b a); lia).
  lia.
Qed.

Lemma route_out_in (s m : nat) : 0 < s → route_out s (route_in s m) = m.
Proof.
  intros Hs. destruct (route_in_decompose s m Hs) as (k & a & b & Ha & Hb & Hm & ->).
  rewrite route_out_block by done. lia.
Qed.

Lemma route_in_out (s m : nat) : 0 < s → route_in s (route_out s m) = m.
Proof.
  intros Hs. destruct (route_out_decompose s m Hs) as (k & a & b & Ha & Hb & Hm & ->).
  rewrite route_in_block by done. lia.
Qed.

Lemma route_in_lt (s r m : nat) :
  0 < s → m < r * (2 * s) → route_in s m < r * (2 * s).
Proof.
  intros Hs Hm. destruct (route_in_decompose s m Hs) as (k & a & b & Ha & Hb & Hm' & ->).
  assert (k < r) by nia. nia.
Qed.

Lemma route_out_lt (s r m : nat) :
  0 < s → m < r * (2 * s) → route_out s m < r * (2 * s).
Proof.
  intros Hs Hm. destruct (route_out_decompose s m Hs) as (k & a & b & Ha & Hb & Hm' & ->).
  assert (k < r) by nia. nia.
Qed.

(** The permutation vectors in closed form. *)
Lemma perm_pair_eq (s r : nat) :
  0 < s → 0 < r →
  perm_pair (r * (2 * s)) s
  = Ok (tab (r * (2 * s)) (route_in s), tab (r * (2 * s)) (route_out s)).
Proof.
  intros Hs Hr. unfold perm_pair.
  rewrite x_in_eq, x_out_eq by done. rewrite !bind_Ok.
  rewrite !perm_of_eq by done. rewrite !bind_Ok.
  f_equal. f_equal.
  - apply list_eq. intros m. destruct (decide (m < r * (2 * s))) as [Hm|Hm].
    + rewrite blocks_lookup by (done || apply x_in_flat_length).
      rewrite x_in_flat by (apply Nat.mod_upper_bound; lia).
      by rewrite tab_lookup.
    + rewrite lookup_ge_None_2
        by (rewrite blocks_length by apply x_in_flat_length; lia).
      symmetry. apply lookup_ge_None_2. rewrite tab_length. lia.
  - apply list_eq. intros m. destruct (decide (m < r * (2 * s))) as [Hm|Hm].
    + rewrite blocks_lookup by (done || apply x_out_flat_length).
      rewrite x_out_flat by (done || apply Nat.mod_upper_bound; lia).
      by rewrite tab_lookup.
    + rewrite lookup_ge_None_2
        by (rewrite blocks_length by apply x_out_flat_length; lia).
      symmetry. apply lookup_ge_None_2. rewrite tab_length. lia.
Qed.

(** ** Permutation vectors are bijections *)

Lemma tab_bijection (N : nat) (f g : nat → nat) :
  (∀ m, m < N → f m < N) → (∀ m, m < N → g m < N) →
  (∀ m, m < N → g (f m) = m) → (∀ m, m < N → f (g m) = m) →
  bijection_on N (tab N f).
Proof.
  intros Hf Hg Hgf Hfg. unfold bijection_on, tab.
  apply NoDup_Permutation.
  - apply NoDup_fmap_2_strong; [|apply NoDup_seq].
    intros x y Hx%elem_of_seq Hy%elem_of_seq Hxy.
    rewrite <- (Hgf x), <- (Hgf y), Hxy by lia. done.
  - apply NoDup_seq.
  - intros x. rewrite list_elem_of_fmap. setoid_rewrite elem_of_seq. split.
    + intros (m & -> & Hm). split; [lia|]. apply Hf. lia.
    + intros Hx. exists (g x). split; [|split; [lia|apply Hg; lia]].
      symmetry. apply Hfg. lia.
Qed.

Lemma pow2_blocks (k v : nat) :
  v < k → 2 ^ k = 2 ^ (k - v - 1) * (2 * 2 ^ v).
Proof.
  intros Hv. replace (2 * 2 ^ v) with (2 ^ (S v)) by done.
  rewrite <- Nat.pow_add_r. f_equal. lia.
Qed.

Lemma pow2_pos (n : nat) : 0 < 2 ^ n.
Proof. apply Nat.neq_0_lt_0, Nat.pow_nonzero. done. Qed.

(** The two permutation vectors of a layer of a mesh of size [2^k]. *)
Lemma layer_perms_eq (k i : nat) :
  i + 2 ≤ 2 ^ k →
  ∃ v, v < k ∧ lowest_set_bit (i + 1) v ∧ stride i = Ok (2 ^ v)
       ∧ layer_perms (2 ^ k) i
         = Ok (tab (2 ^ k) (route_in (2 ^ v)), tab (2 ^ k) (route_out (2 ^ v))).
Proof.
  intros Hi. destruct (stride_in_mesh k i Hi) as (v & Hs & Hl & Hv).
  exists v. do 3 (split; [done|]).
  unfold layer_perms. rewrite Hs, bind_Ok.
  rewrite (pow2_blocks k v Hv).
  apply perm_pair_eq; apply pow2_pos.
Qed.

Lemma route_in_bijection (k v : nat) :
  v < k → bijection_on (2 ^ k) (tab (2 ^ k) (route_in (2 ^ v))).
Proof.
  intros Hv. pose proof (pow2_pos v).
  apply (tab_bijection _ _ (route_out (2 ^ v))).
  - rewrite (pow2_blocks k v Hv). intros. by apply route_in_lt.
  - rewrite (pow2_blocks k v Hv). intros. by apply route_out_lt.
  - intros. by apply route_out_in.
  - intros. by apply route_in_out.
Qed.

Lemma route_out_bijection (k v : nat) :
  v < k → bijection_on (2 ^ k) (tab (2 ^ k) (route_out (2 ^ v))).
Proof.
  intros Hv. pose proof (pow2_pos v).
  apply (tab_bijection _ _ (route_in (2 ^ v))).
  - rewrite (pow2_blocks k v Hv). intros. by apply route_out_lt.
  - rewrite (pow2_blocks k v Hv). intros. by apply route_in_lt.
  - intros. by apply route_in_out.
  - intros. by apply route_out_in.
Qed.

Lemma layer_perms_bijective (k i : nat) :
  i + 2 ≤ 2 ^ k →
  ∃ p1 p2, layer_perms (2 ^ k) i = Ok (p1, p2)
           ∧ bijection_on (2 ^ k) p1 ∧ bijection_on (2 ^ k) p2.
Proof.
  intros Hi. destruct (layer_perms_eq k i Hi) as (v & Hv & _ & _ & ->).
  eexists _, _. split; [done|]. split.
  - by apply route_in_bijection.
  - by apply route_out_bijection.
Qed.

(** ** Integer-array indexing *)

Lemma take_idx_Ok {A} (v : list A) (p : list nat) (w : list A) :
  Np.take_idx v p = Ok w ↔ Forall2 (λ k x, v !! k = Some x) p w.
Proof.
  unfold Np.take_idx. rewrite <- mapM_Some.
  destruct (mapM _ p); naive_solver.
Qed.

Lemma take_idx_total `{Inhabited A} (v : list A) (p : list nat) :
  Forall (λ k, k < length v) p →
  Np.take_idx v p = Ok ((λ k, v !!! k) <$> p).
Proof.
  intros Hp. apply take_idx_Ok. apply Forall2_fmap_r, Forall_Forall2_diag.
  eapply Forall_impl; [done|]. intros k Hk. simpl.
  by apply list_lookup_lookup_total_lt.
Qed.

Lemma fmap_lookup_total_seq `{Inhabited A} (v : list A) :
  (λ k, v !!! k) <$> seq 0 (length v) = v.
Proof.
  transitivity (id <$> v); [|apply list_fmap_id]. apply (tab_fmap v).
  intros i x Hx. by apply list_lookup_total_correct.
Qed.

Lemma bijection_in_range (N : nat) (p : list nat) :
  bijection_on N p → Forall (λ k, k < N) p.
Proof.
  intros Hp. apply Forall_forall. intros x Hx.
  rewrite Hp in Hx. apply elem_of_seq in Hx. lia.
Qed.

Lemma bijection_length (N : nat) (p : list nat) :
  bijection_on N p → length p = N.
Proof. intros Hp. by rewrite Hp, length_seq. Qed.

(** Rerouting a bijection by a bijection gives a bijection. *)
Lemma take_idx_bijection (N : nat) (v p : list nat) :
  bijection_on N v → bijection_on N p →
  ∃ w, Np.take_idx v p = Ok w ∧ bijection_on N w.
Proof.
  intros Hv Hp. eexists. split.
  - apply take_idx_total. rewrite (bijection_length N v Hv).
    by apply bijection_in_range.
  - unfold bijection_on. rewrite Hp.
    rewrite <- (bijection_length N v Hv), fmap_lookup_total_seq.
    rewrite (bijection_length N v Hv). done.
Qed.

Lemma compose_perms_bijection (N : nat) (ps : list (list nat)) :
  Forall (bijection_on N) ps →
  ∃ v, compose_perms N ps = Ok v ∧ bijection_on N v.
Proof.
  unfold compose_perms. intros Hps.
  assert (bijection_on N (seq 0 N)) as Hv by by unfold bijection_on.
  revert Hv. generalize (seq 0 N) as v.
  induction Hps as [|p ps Hp _ IH]; intros v Hv; simpl; [eauto|].
  destruct (take_idx_bijection N v p Hv Hp) as (w & -> & Hw).
  rewrite bind_Ok. by apply IH.
Qed.

(** ** Loops that do not raise *)

Lemma mapR_Forall {A B} (f : A → result B) (P : B → Prop) (l : list A) :
  Forall (λ x, ∃ y, f x = Ok y ∧ P y) l →
  ∃ ys, mapR f l = Ok ys ∧ length ys = length l ∧ Forall P ys.
Proof.
  induction 1 as [|x l (y & Hy & HP) _ (ys & Hys & Hlen & HPs)]; simpl.
  - by exists [].
  - exists (y :: ys). rewrite Hy, bind_Ok, Hys, bind_Ok. simpl. auto.
Qed.

Lemma mapR_fmap {A B} (f : A → result B) (g : A → B) (l : list A) :
  (∀ x, x ∈ l → f x = Ok (g x)) → mapR f l = Ok (g <$> l).
Proof.
  induction l as [|x l IH]; intros H; simpl; [done|].
  rewrite H by left. rewrite bind_Ok, IH, bind_Ok; [done|].
  intros y Hy. apply H. by right.
Qed.

Lemma for_each_invariant {A S} (P : S → Prop) (body : A → S → result S)
      (l : list A) (st : S) :
  (∀ a s, a ∈ l → P s → ∃ s', body a s = Ok s' ∧ P s') →
  P st → ∃ st', for_each body l st = Ok st' ∧ P st'.
Proof.
  revert st. induction l as [|a l IH]; intros st H Hst; simpl; [eauto|].
  destruct (H a st) as (s' & -> & Hs'); [by left|done|].
  rewrite bind_Ok. apply IH; [|done].
  intros b s Hb. apply H. by right.
Qed.

(** ** The permutation vectors of the whole mesh *)

Lemma all_layer_perms_bijective (k : nat) :
  ∃ ps, all_layer_perms (2 ^ k) = Ok ps
        ∧ length ps = 2 * (2 ^ k - 1)
        ∧ Forall (bijection_on (2 ^ k)) ps.
Proof.
  unfold all_layer_perms. rewrite arange_seq.
  destruct (mapR_Forall (layer_perms (2 ^ k))
              (λ pq, bijection_on (2 ^ k) pq.1 ∧ bijection_on (2 ^ k) pq.2)
              (seq 0 (2 ^ k - 1))) as (pairs & -> & Hlen & Hpairs).
  { apply Forall_forall. intros i Hi%elem_of_seq.
    destruct (layer_perms_bijective k i) as (p1 & p2 & ? & ? & ?); [lia|].
    by exists (p1, p2). }
  rewrite bind_Ok. eexists. split; [done|]. split.
  - rewrite length_join, <- list_fmap_compose.
    rewrite (sum_list_fmap_same 2) by (apply Forall_forall; by intros).
    rewrite Hlen, length_seq. lia.
  - apply Forall_forall. intros p Hp.
    apply list_elem_of_join in Hp as (l & Hpl & Hl).
    apply list_elem_of_fmap in Hl as ([p1 p2] & -> & Hpq).
    rewrite Forall_forall in Hpairs. destruct (Hpairs _ Hpq) as [H1 H2].
    simpl in *. inversion Hpl as [|? ? ? Hpl']; subst; [done|].
    inversion Hpl' as [|? ? ? Hpl'']; subst; [done|]. inversion Hpl''.
Qed.

Lemma odd_layers (N i : nat) :
  i ∈ Np.arange3 1 (N - 1) 2 → i + 2 ≤ N.
Proof.
  unfold Np.arange3. intros (j & -> & Hj%elem_of_seq)%list_elem_of_fmap.
  destruct Hj as [_ Hj]. change (2 - 1) with 1 in Hj.
  pose proof (Nat.div_mod_eq (N - 1 - 1 + 1) 2). lia.
Qed.

Lemma slice_assign2_ok (N i : nat) (p1 p2 : list nat)
      (perm : list (option (list nat))) :
  i + 2 ≤ N → bijection_on N p1 → bijection_on N p2 →
  perm_ok N perm → perm_ok N (slice_assign2 i (Some p1) (Some p2) perm).
Proof.
  intros Hi H1 H2 [Hlen Hperm]. unfold perm_ok, slice_assign2, perm_vectors in *.
  split.
  - rewrite length_app, length_take. simpl. rewrite length_drop. lia.
  - rewrite fmap_app. simpl. rewrite fmap_drop, fmap_take.
    apply Forall_app. split; [by apply Forall_take|].
    repeat constructor; [done..|]. by apply Forall_drop.
Qed.

Lemma topology_bijective (k : nat) :
  ∃ perm, topology (2 ^ k)
          = Ok (replicate (2 ^ k - 1) (2 ^ k `div` 2),
                replicate (2 ^ k - 1) 0, perm)
          ∧ perm_ok (2 ^ k) perm.
Proof.
  unfold topology.
  match goal with
  | |- context [for_each ?b ?l ?s] =>
      destruct (for_each_invariant (perm_ok (2 ^ k)) b l s)
        as (perm & -> & Hperm); [| |rewrite bind_Ok; eauto]
  end.
  - intros i perm Hi%odd_layers Hperm.
    destruct (layer_perms_bijective k i Hi) as (p1 & p2 & Hl & H1 & H2).
    unfold layer_perms in Hl. destruct (stride i) as [s|]; [|done].
    rewrite bind_Ok in Hl. rewrite bind_Ok, Hl, bind_Ok.
    eexists. split; [done|]. by apply slice_assign2_ok.
  - split; [by rewrite length_replicate|].
    unfold perm_vectors. rewrite fmap_replicate. apply Forall_replicate.
    by unfold bijection_on.
Qed.

Lemma take_idx_tab {A} (v : list A) (n : nat) (f : nat → nat) :
  (∀ m, m < n → f m < length v) →
  ∃ w, Np.take_idx v (tab n f) = Ok w ∧ length w = n
       ∧ ∀ m, m < n → w !! m = v !! f m.
Proof.
  intros Hf. unfold Np.take_idx.
  destruct (mapM (λ k, v !! k) (tab n f)) as [w|] eqn:E.
  - apply mapM_Some_1 in E. exists w. split; [done|].
    pose proof (Forall2_length _ _ _ E) as Hlen. rewrite tab_length in Hlen.
    split; [done|]. intros m Hm.
    destruct (lookup_lt_is_Some_2 w m ltac:(lia)) as [y Hy].
    rewrite Hy. symmetry.
    apply (Forall2_lookup_lr _ _ _ m (f m) y E); [by apply tab_lookup|done].
  - apply mapM_None_1, Exists_exists in E as (j & Hj & Hnone).
    apply list_elem_of_fmap in Hj as (m & -> & Hm%elem_of_seq).
    apply lookup_ge_None in Hnone. specialize (Hf m). lia.
Qed.

(** Rerouting by [tab N f] and then by [tab N g] gives the array back when
    [f (g m) = m]. *)
Lemma take_idx_round_trip {A} (v : list A) (f g : nat → nat) :
  (∀ m, m < length v → f m < length v) →
  (∀ m, m < length v → g m < length v) →
  (∀ m, m < length v → f (g m) = m) →
  ∃ w, Np.take_idx v (tab (length v) f) = Ok w
       ∧ Np.take_idx w (tab (length v) g) = Ok v.
Proof.
  intros Hf Hg Hfg.
  destruct (take_idx_tab v (length v) f Hf) as (w & Hw & Hlen & Hlook).
  exists w. split; [done|].
  destruct (take_idx_tab w (length v) g) as (w' & Hw' & Hlen' & Hlook').
  { by rewrite Hlen. }
  rewrite Hw'. f_equal. apply list_eq. intros m.
  destruct (decide (m < length v)) as [Hm|Hm].
  - rewrite Hlook', Hlook, Hfg by auto. done.
  - rewrite !lookup_ge_None_2 by lia. done.
Qed.


(** ** Array operations on well-shaped arrays *)

Lemma item_ok `{Inhabited A} (l : list A) (k : nat) :
  k < length l → item l k = Ok (l !!! k).
Proof.
  intros Hk. unfold item. by rewrite (list_lookup_lookup_total_lt l k Hk).
Qed.

Lemma update_at_ok `{Inhabited A} (l : list A) (k : nat)
      (f : A → result A) (y : A) :
  k < length l → f (l !!! k) = Ok y → update_at l k f = Ok (<[k := y]> l).
Proof.
  intros Hk Hf. unfold update_at. rewrite item_ok, bind_Ok, Hf by done. done.
Qed.

Lemma zip_with_snd {A B} (u : list A) (v : list B) :
  length u = length v → zip_with (λ _ x, x) u v = v.
Proof.
  revert v. induction u as [|a u IH]; intros [|b v] Hlen; simpl in *;
    try done. f_equal. apply IH. lia.
Qed.

Lemma bzip_same {A B D} (f : A → B → result D) (g : A → B → D)
      (u : list A) (v : list B) :
  Forall2 (λ a b, f a b = Ok (g a b)) u v →
  bzip f u v = Ok (zip_with g u v).
Proof.
  intros Huv. unfold bzip.
  rewrite decide_True by by eapply Forall2_length.
  induction Huv as [|a b u v Hab _ IH]; simpl; [done|].
  by rewrite Hab, bind_Ok, IH, bind_Ok.
Qed.

Lemma Forall2_same_length_True {A B} (u : list A) (v : list B) (P : A → B → Prop) :
  length u = length v → (∀ a b, P a b) → Forall2 P u v.
Proof.
  intros Hlen HP. apply Forall2_same_length_lookup_2; [done|]. auto.
Qed.

Lemma bzip1_same {A B D} (f : A → B → D) (u : list A) (v : list B) :
  length u = length v → bzip1 f u v = Ok (zip_with f u v).
Proof.
  intros Hlen. apply bzip_same. by apply Forall2_same_length_True.
Qed.

Lemma assign_all_same {A} (v w : list A) :
  length w = length v → assign_all v w = Ok w.
Proof.
  intros Hlen. unfold assign_all, into.
  rewrite bzip1_same, bind_Ok, zip_with_snd by done.
  by rewrite decide_True.
Qed.

Lemma assign_all2_same {A} (m c : nat) (X Y : list (list A)) :
  shape2 m c X → shape2 m c Y → assign_all2 X Y = Ok Y.
Proof.
  intros [HX1 HX2] [HY1 HY2]. unfold assign_all2, into.
  rewrite (bzip_same _ (λ _ y, y)).
  - rewrite bind_Ok, zip_with_snd by congruence.
    rewrite decide_True by congruence. done.
  - apply Forall2_same_length_lookup_2; [congruence|].
    intros i r1 r2 H1 H2.
    apply (Forall_lookup_1 _ _ _ _ HX2) in H1.
    apply (Forall_lookup_1 _ _ _ _ HY2) in H2.
    apply assign_all_same. unfold shape1 in *. congruence.
Qed.

Lemma evens_lookup {A} (v : list A) (j : nat) : evens v !! j = v !! (2 * j).
Proof.
  revert v. induction j as [|j IH]; intros [|x [|y u]]; simpl; try done.
  rewrite IH. replace (j + S (j + 0)) with (S (2 * j)) by lia. done.
Qed.

Lemma odds_lookup {A} (v : list A) (j : nat) : odds v !! j = v !! (2 * j + 1).
Proof.
  unfold odds. rewrite evens_lookup. destruct v as [|x v]; simpl.
  - by rewrite lookup_nil.
  - replace (j + (j + 0) + 1) with (S (2 * j)) by lia. done.
Qed.

Lemma evens_length_gen {A} (v : list A) :
  length (evens v) = (length v + 1) `div` 2.
Proof.
  remember (length v) as n eqn:Hn. revert v Hn.
  induction (lt_wf n) as [n _ IH]. intros [|x [|y u]] ->; [done|done|].
  change (evens (x :: y :: u)) with (x :: evens u). cbn [length].
  rewrite (IH (length u) ltac:(simpl; lia) u eq_refl).
  replace (S (S (length u)) + 1) with (length u + 1 + 1 * 2) by lia.
  rewrite Nat.div_add by done. lia.
Qed.

Lemma evens_length {A} (v : list A) (n : nat) :
  length v = 2 * n → length (evens v) = n.
Proof.
  intros Hlen. rewrite evens_length_gen, Hlen.
  symmetry. apply (Nat.div_unique _ 2 n 1); lia.
Qed.

Lemma odds_length {A} (v : list A) (n : nat) :
  length v = 2 * n → length (odds v) = n.
Proof.
  intros Hlen. unfold odds. rewrite evens_length_gen.
  destruct v as [|x v]; simpl in *.
  - by destruct n.
  - symmetry. apply (Nat.div_unique _ 2 n 0); lia.
Qed.

Lemma transpose_2 `{Inhabited A} (r0 r1 : list A) (n : nat) :
  length r0 = n → length r1 = n →
  transpose [r0; r1] = tab n (λ j, [r0 !!! j; r1 !!! j]).
Proof.
  intros H0 H1. unfold transpose. simpl. rewrite H0. apply tab_ext.
  intros j Hj.
  rewrite (list_lookup_lookup_total_lt r0 j), (list_lookup_lookup_total_lt r1 j)
    by lia. done.
Qed.

Lemma transpose_shape {A} (r0 r1 : list A) (n : nat) :
  length r0 = n → length r1 = n → shape2 n 2 (transpose [r0; r1]).
Proof.
  intros H0 H1. unfold transpose. simpl. split.
  - by rewrite length_fmap, length_seq.
  - apply Forall_fmap, Forall_forall. intros j Hj%elem_of_seq. simpl.
    destruct (lookup_lt_is_Some_2 r0 j ltac:(lia)) as [x ->].
    destruct (lookup_lt_is_Some_2 r1 j ltac:(lia)) as [y ->]. done.
Qed.

Lemma flatten_pairs {A} (x y : nat → A) (n k : nat) :
  k < 2 * n →
  mjoin (tab n (λ j, [x j; y j])) !! k
  = Some (if decide (k `mod` 2 = 0) then x (k `div` 2) else y (k `div` 2)).
Proof.
  intros Hk.
  pose proof (Nat.div_mod_eq k 2) as Hdm.
  pose proof (Nat.mod_upper_bound k 2 ltac:(lia)) as Hlt.
  rewrite Hdm at 1. rewrite (Nat.mul_comm 2).
  apply (join_lookup_Some_same_length' 2); [|done|].
  - apply Forall_fmap, Forall_forall. by intros j _.
  - eexists. split; [apply tab_lookup; lia|].
    destruct (k `mod` 2) as [|[|?]]; simpl; [done|done|lia].
Qed.

Lemma flatten_pairs_length {A} (x y : nat → A) (n : nat) :
  length (mjoin (tab n (λ j, [x j; y j]))) = 2 * n.
Proof.
  unfold tab. rewrite length_join, <- list_fmap_compose.
  rewrite (sum_list_fmap_same 2) by (apply Forall_forall; by intros).
  rewrite length_seq. lia.
Qed.

Lemma tab_insert `{Inhabited A} (l : list A) (i : nat) (y : A) (f : nat → A) :
  i < length l →
  (∀ j, j < length l → f j = if decide (j = i) then y else l !!! j) →
  tab (length l) f = <[i := y]> l.
Proof.
  intros Hi Hf. apply list_eq. intros j.
  destruct (decide (j < length l)) as [Hj|Hj].
  - rewrite tab_lookup, Hf by done. case_decide as Hji.
    + subst. by rewrite list_lookup_insert_eq.
    + rewrite list_lookup_insert_ne by done.
      by rewrite list_lookup_lookup_total_lt.
  - rewrite !lookup_ge_None_2; [done| |].
    + rewrite length_insert. lia.
    + rewrite tab_length. lia.
Qed.

Lemma tab_id `{Inhabited A} (l : list A) : tab (length l) (λ j, l !!! j) = l.
Proof. apply fmap_lookup_total_seq. Qed.

(** ** One layer of the phase solver *)

Section SolverFacts.
Context `{Sc : Scalars}.
#[local] Existing Instance R_inhabited.
#[local] Existing Instance C_inhabited.

Lemma shaped_2_inv {A} (P : A → Prop) (l : list A) :
  shaped P 2 l → ∃ x y, l = [x; y] ∧ P x ∧ P y.
Proof.
  intros [Hlen HP]. destruct l as [|x [|y [|z l]]]; try done.
  exists x, y. inversion HP as [|? ? Hx HP']. inversion HP'. done.
Qed.

Lemma shape4_inv (L n : nat) (D : tensor4) :
  shape4 2 2 L n D →
  ∃ A00 A01 A10 A11, D = [[A00; A01]; [A10; A11]]
    ∧ shape2 L n A00 ∧ shape2 L n A01 ∧ shape2 L n A10 ∧ shape2 L n A11.
Proof.
  intros (D0 & D1 & -> & H0 & H1)%shaped_2_inv.
  apply shaped_2_inv in H0 as (A00 & A01 & -> & ? & ?).
  apply shaped_2_inv in H1 as (A10 & A11 & -> & ? & ?).
  by exists A00, A01, A10, A11.
Qed.

Lemma shape4_intro {A} (L n : nat) (A00 A01 A10 A11 : list (list A)) :
  shape2 L n A00 → shape2 L n A01 → shape2 L n A10 → shape2 L n A11 →
  shape4 2 2 L n [[A00; A01]; [A10; A11]].
Proof.
  intros H00 H01 H10 H11.
  assert (∀ x y : list (list A), shape2 L n x → shape2 L n y →
            shape3 2 L n [x; y]) as Hrow.
  { intros x y Hx Hy. split; [done|].
    apply Forall_cons_2; [done|]. apply Forall_cons_2; [done|]. apply Forall_nil_2. }
  split; [done|].
  apply Forall_cons_2; [by apply Hrow|].
  apply Forall_cons_2; [by apply Hrow|]. apply Forall_nil_2.
Qed.

Lemma shape2_row {A} `{Inhabited A} (L n i : nat) (M : list (list A)) :
  shape2 L n M → i < L → length (M !!! i) = n.
Proof.
  intros [Hlen HM] Hi. apply (Forall_lookup_total_1 _ _ i) in HM; [done|lia].
Qed.

Lemma row_scale (L n i : nat) (A : list (list C)) (v : list C) :
  shape2 L n A → i < L → length v = n →
  update_at A i (λ row, into row (bzip1 cmul row v))
  = Ok (<[i := zip_with cmul (A !!! i) v]> A).
Proof.
  intros HA Hi Hv. pose proof (shape2_row L n i A HA Hi) as Hrow.
  apply update_at_ok; [destruct HA; lia|].
  rewrite bzip1_same by congruence. unfold into. rewrite bind_Ok.
  rewrite decide_True; [done|]. rewrite length_zip_with. lia.
Qed.

Lemma row_scale_shape (L n i : nat) (A : list (list C)) (v : list C) :
  shape2 L n A → i < L → length v = n →
  shape2 L n (<[i := zip_with cmul (A !!! i) v]> A).
Proof.
  intros HA Hi Hv. pose proof (shape2_row L n i A HA Hi) as Hrow.
  destruct HA as [Hlen HA]. split; [by rewrite length_insert|].
  apply Forall_insert; [done|]. unfold shape1. rewrite length_zip_with. lia.
Qed.

Lemma imul_port_0 (L n i : nat) (A00 A01 A10 A11 : list (list C)) (v : list C) :
  shape2 L n A00 → shape2 L n A10 → i < L → length v = n →
  imul_port [[A00; A01]; [A10; A11]] 0 i v
  = Ok [[<[i := zip_with cmul (A00 !!! i) v]> A00; A01];
        [<[i := zip_with cmul (A10 !!! i) v]> A10; A11]].
Proof.
  intros H00 H10 Hi Hv. unfold imul_port. simpl.
  rewrite (update_at_ok [A00; A01] 0 _ _ ltac:(simpl; lia) (row_scale L n i A00 v H00 Hi Hv)).
  rewrite bind_Ok.
  rewrite (update_at_ok [A10; A11] 0 _ _ ltac:(simpl; lia) (row_scale L n i A10 v H10 Hi Hv)).
  done.
Qed.

Lemma imul_port_1 (L n i : nat) (A00 A01 A10 A11 : list (list C)) (v : list C) :
  shape2 L n A01 → shape2 L n A11 → i < L → length v = n →
  imul_port [[A00; A01]; [A10; A11]] 1 i v
  = Ok [[A00; <[i := zip_with cmul (A01 !!! i) v]> A01];
        [A10; <[i := zip_with cmul (A11 !!! i) v]> A11]].
Proof.
  intros H01 H11 Hi Hv. unfold imul_port. simpl.
  rewrite (update_at_ok [A00; A01] 1 _ _ ltac:(simpl; lia) (row_scale L n i A01 v H01 Hi Hv)).
  rewrite bind_Ok.
  rewrite (update_at_ok [A10; A11] 1 _ _ ltac:(simpl; lia) (row_scale L n i A11 v H11 Hi Hv)).
  done.
Qed.

Lemma port_phases_lookup (b n j : nat) (phi : list R) :
  length phi = 2 * n → j < n → b < 2 →
  port_phases b phi !! j
  = Some (cexp (cmul c1j (of_real (phi !!! (2 * j + b))))).
Proof.
  intros Hphi Hj Hb. unfold port_phases, exp1j. rewrite list_lookup_fmap.
  case_decide as Hb0.
  - subst. rewrite evens_lookup, Nat.add_0_r.
    by rewrite (list_lookup_lookup_total_lt phi) by lia.
  - replace b with 1 by lia. rewrite odds_lookup.
    by rewrite (list_lookup_lookup_total_lt phi) by lia.
Qed.

Lemma port_phases_length (b n : nat) (phi : list R) :
  length phi = 2 * n → length (port_phases b phi) = n.
Proof.
  intros Hphi. unfold port_phases, exp1j. rewrite length_fmap.
  case_decide; [by apply evens_length|by apply odds_length].
Qed.

Lemma absorb_layer (L n i b : nat) (A : list (list C)) (phi : list R) :
  shape2 L n A → i < L → length phi = 2 * n → b < 2 →
  tab L (λ l, tab n (λ j,
    if decide (l = i)
    then cmul ((A !!! l) !!! j) (cexp (cmul c1j (of_real (phi !!! (2 * j + b)))))
    else (A !!! l) !!! j))
  = <[i := zip_with cmul (A !!! i) (port_phases b phi)]> A.
Proof.
  intros HA Hi Hphi Hb. pose proof HA as [HL _]. rewrite <- HL.
  apply tab_insert; [lia|]. intros l Hl.
  pose proof (shape2_row L n l A HA ltac:(lia)) as Hrow.
  case_decide as Hli.
  - subst l. apply list_eq. intros j.
    destruct (decide (j < n)) as [Hj|Hj].
    + rewrite tab_lookup, lookup_zip_with by done.
      rewrite (list_lookup_lookup_total_lt (A !!! i)) by lia.
      rewrite (port_phases_lookup b n) by done. done.
    + rewrite !lookup_ge_None_2; [done| |].
      * rewrite length_zip_with, (port_phases_length b n) by done. lia.
      * rewrite tab_length. lia.
  - rewrite <- Hrow. apply tab_id.
Qed.

Lemma tab_2 {A} (f : nat → A) : tab 2 f = [f 0; f 1].
Proof. done. Qed.

Lemma spec_absorb_eq (N i : nat) (A00 A01 A10 A11 : list (list C)) (phi : list R) :
  shape2 (N - 1) (N `div` 2) A00 → shape2 (N - 1) (N `div` 2) A01 →
  shape2 (N - 1) (N `div` 2) A10 → shape2 (N - 1) (N `div` 2) A11 →
  i < N - 1 → length phi = 2 * (N `div` 2) →
  spec_absorb N i phi [[A00; A01]; [A10; A11]]
  = [[<[i := zip_with cmul (A00 !!! i) (port_phases 0 phi)]> A00;
      <[i := zip_with cmul (A01 !!! i) (port_phases 1 phi)]> A01];
     [<[i := zip_with cmul (A10 !!! i) (port_phases 0 phi)]> A10;
      <[i := zip_with cmul (A11 !!! i) (port_phases 1 phi)]> A11]].
Proof.
  intros H00 H01 H10 H11 Hi Hphi. unfold spec_absorb, tab4, entry.
  rewrite !tab_2.
  change ([[A00; A01]; [A10; A11]] !!! 0) with [A00; A01].
  change ([[A00; A01]; [A10; A11]] !!! 1) with [A10; A11].
  change ([A00; A01] !!! 0) with A00. change ([A00; A01] !!! 1) with A01.
  change ([A10; A11] !!! 0) with A10. change ([A10; A11] !!! 1) with A11.
  rewrite !(absorb_layer (N - 1) (N `div` 2)) by (done || lia). done.
Qed.

(** Reading the layer [i] of [Dij]. *)
Lemma port_00 (i : nat) (B00 B01 B10 B11 : list (list C)) :
  i < length B00 → port [[B00; B01]; [B10; B11]] 0 0 i = Ok (B00 !!! i).
Proof. intros Hi. unfold port. simpl. by apply item_ok. Qed.

Lemma port_01 (i : nat) (B00 B01 B10 B11 : list (list C)) :
  i < length B01 → port [[B00; B01]; [B10; B11]] 0 1 i = Ok (B01 !!! i).
Proof. intros Hi. unfold port. simpl. by apply item_ok. Qed.

Lemma layer_of_ok (i : nat) (A00 A01 A10 A11 : list (list C)) :
  i < length A00 → i < length A01 → i < length A10 → i < length A11 →
  layer_of [[A00; A01]; [A10; A11]] i
  = Ok [[A00 !!! i; A01 !!! i]; [A10 !!! i; A11 !!! i]].
Proof.
  intros. unfold layer_of. simpl. by rewrite !item_ok by done.
Qed.

Lemma bzip3_ok (n : nat) (d00 d01 d10 d11 f00 f01 f10 f11 : list C) :
  length d00 = n → length d01 = n → length d10 = n → length d11 = n →
  length f00 = n → length f01 = n → length f10 = n → length f11 = n →
  bzip3 cdiv [[d00; d01]; [d10; d11]] [[f00; f01]; [f10; f11]]
  = Ok [[zip_with cdiv d00 f00; zip_with cdiv d01 f01];
        [zip_with cdiv d10 f10; zip_with cdiv d11 f11]].
Proof.
  intros. unfold bzip3, bzip2. unfold bzip at 1. simpl.
  unfold bzip at 1. simpl. rewrite !bzip1_same by congruence. simpl.
  unfold bzip at 1. simpl. rewrite !bzip1_same by congruence. done.
Qed.

Lemma residual_ok (n : nat) (q00 q01 q10 q11 : list C) :
  length q00 = n → length q10 = n →
  residual [[q00; q01]; [q10; q11]]
  = Ok (mjoin (tab n (λ j, [angle (q00 !!! j); angle (q10 !!! j)]))).
Proof.
  intros H0 H1. unfold residual. simpl. unfold Np.flatten. f_equal. f_equal.
  rewrite (transpose_2 _ _ n) by by rewrite length_fmap.
  apply tab_ext. intros j Hj.
  f_equal; [|f_equal]; apply list_lookup_total_correct;
    rewrite list_lookup_fmap, list_lookup_lookup_total_lt by lia; done.
Qed.

Lemma pow2_half (k : nat) : 1 ≤ k → 2 ^ k = 2 * (2 ^ k `div` 2).
Proof.
  intros Hk. replace k with (S (k - 1)) by lia.
  rewrite Nat.pow_succ_r', (Nat.mul_comm 2 (2 ^ _)), Nat.div_mul by done. lia.
Qed.

Lemma solve_layer_spec (X : Crossing) (k i : nat) (st : solver_state) :
  i + 2 ≤ 2 ^ k → state_ok (2 ^ k) st → crossing_ok X (2 ^ k `div` 2) →
  solve_layer X (2 ^ k) i st = Ok (spec_layer X (2 ^ k) st i)
  ∧ state_ok (2 ^ k) (spec_layer X (2 ^ k) st i).
Proof.
  intros Hi (HD & Hpc & Hphi) [Hsolve Hfwd].
  destruct (layer_perms_eq k i Hi) as (v & Hv & _ & Hs & Hl).
  assert (Hk : 1 ≤ k) by lia.
  pose proof (pow2_half k Hk) as HN.
  pose proof (pow2_pos v) as Hspos.
  pose proof (pow2_blocks k v Hv) as Hblocks.
  assert (Hin : ∀ m, m < 2 ^ k → route_in (2 ^ v) m < 2 ^ k).
  { rewrite Hblocks. intros. by apply route_in_lt. }
  assert (Hout : ∀ m, m < 2 ^ k → route_out (2 ^ v) m < 2 ^ k).
  { rewrite Hblocks. intros. by apply route_out_lt. }
  set (N := 2 ^ k) in *. set (n := N `div` 2) in *.
  destruct st as [D pc phi calls]. simpl in HD, Hpc, Hphi.
  destruct (shape4_inv _ _ D HD) as (A00 & A01 & A10 & A11 & -> & H00 & H01 & H10 & H11).
  unfold spec_layer, perms_of. rewrite Hl.
  unfold solve_layer. rewrite Hs, bind_Ok.
  unfold layer_perms in Hl. rewrite Hs, bind_Ok in Hl. rewrite Hl, bind_Ok.
  cbn [s_Dij s_p_crossing s_phi_out s_calls].
  set (p1 := tab N (route_in (2 ^ v))). set (p2 := tab N (route_out (2 ^ v))).
  set (phi1 := spec_permute p1 phi).
  assert (Hphi1 : length phi1 = N).
  { unfold phi1, spec_permute, p1. by rewrite length_fmap, tab_length. }
  (* phi_out[:] = phi_out[p1] *)
  rewrite (take_idx_total phi p1).
  2:{ apply Forall_fmap, Forall_forall. intros m Hm%elem_of_seq. simpl.
      rewrite Hphi. apply Hin. lia. }
  fold (spec_permute p1 phi). fold phi1.
  rewrite bind_Ok, (assign_all_same phi phi1), bind_Ok by congruence.
  (* Dij[:, 0, i, :] *= ...; Dij[:, 1, i, :] *= ... *)
  assert (Hi' : i < N - 1) by lia.
  assert (Hphi1' : length phi1 = 2 * n) by lia.
  rewrite spec_absorb_eq by done.
  pose proof (port_phases_length 0 n phi1 Hphi1') as Hv0.
  pose proof (port_phases_length 1 n phi1 Hphi1') as Hv1.
  change (exp1j (evens phi1)) with (port_phases 0 phi1).
  change (exp1j (odds phi1)) with (port_phases 1 phi1).
  rewrite (imul_port_0 (N - 1) n) by done. rewrite bind_Ok.
  rewrite (imul_port_1 (N - 1) n) by done. rewrite bind_Ok.
  set (r00 := zip_with cmul (A00 !!! i) (port_phases 0 phi1)).
  set (r01 := zip_with cmul (A01 !!! i) (port_phases 1 phi1)).
  set (r10 := zip_with cmul (A10 !!! i) (port_phases 0 phi1)).
  set (r11 := zip_with cmul (A11 !!! i) (port_phases 1 phi1)).
  assert (Hrow : ∀ (A : list (list C)) (w : list C),
            shape2 (N - 1) n A → length w = n →
            length (zip_with cmul (A !!! i) w) = n).
  { intros A w HA Hw. rewrite length_zip_with.
    rewrite (shape2_row (N - 1) n i A HA Hi'). lia. }
  assert (Hr00 : length r00 = n) by by apply Hrow.
  assert (Hr01 : length r01 = n) by by apply Hrow.
  assert (Hr10 : length r10 = n) by by apply Hrow.
  assert (Hr11 : length r11 = n) by by apply Hrow.
  assert (Hlen : ∀ A : list (list C), shape2 (N - 1) n A → i < length A).
  { intros A [-> _]. done. }
  assert (Hget : ∀ (A : list (list C)) (r : list C),
            shape2 (N - 1) n A → <[i := r]> A !!! i = r).
  { intros A r HA. apply list_lookup_total_insert_eq. by apply Hlen. }
  (* the inverse solve *)
  rewrite port_00 by (rewrite length_insert; by apply Hlen).
  rewrite bind_Ok.
  rewrite port_01 by (rewrite length_insert; by apply Hlen).
  rewrite bind_Ok, !Hget by done.
  unfold spec_params, spec_residual, spec_target, solved, forward.
  fold n.
  change ([[<[i:=r00]> A00; <[i:=r01]> A01];
           [<[i:=r10]> A10; <[i:=r11]> A11]] !!! 0)
    with [<[i:=r00]> A00; <[i:=r01]> A01].
  change ([<[i:=r00]> A00; <[i:=r01]> A01] !!! 0) with (<[i:=r00]> A00).
  change ([<[i:=r00]> A00; <[i:=r01]> A01] !!! 1) with (<[i:=r01]> A01).
  rewrite !Hget by done.
  destruct (Hsolve r00 r01 Hr00 Hr01) as (pp & e & -> & Hpp).
  apply shaped_2_inv in Hpp as (s0 & s1 & -> & Hs0 & Hs1).
  rewrite bind_Ok.
  destruct Hpc as [Hpclen Hpcrows].
  assert (Hold : shape2 n 2 (pc !!! i)).
  { apply (Forall_lookup_total_1 _ _ i) in Hpcrows; [done|lia]. }
  rewrite (item_ok pc i) by lia. rewrite bind_Ok.
  cbn [fst].
  pose proof (transpose_shape s0 s1 n Hs0 Hs1) as Hnew.
  rewrite (assign_all2_same n 2 _ _ Hold Hnew), bind_Ok.
  rewrite (transpose_2 s0 s1 n Hs0 Hs1) in *.
  change ([s0; s1] !!! 0) with s0. change ([s0; s1] !!! 1) with s1.
  set (new := tab n (λ j, [s0 !!! j; s1 !!! j])) in *.
  rewrite (item_ok (<[i:=new]> pc) i) by (rewrite length_insert; lia).
  rewrite bind_Ok, (list_lookup_total_insert_eq pc i new) by lia.
  (* the residual phases *)
  rewrite layer_of_ok by (rewrite length_insert; by apply Hlen).
  rewrite bind_Ok, !Hget by done.
  destruct (Hfwd new Hnew) as (F & -> & HF).
  apply shaped_2_inv in HF as (F0 & F1 & -> & HF0 & HF1).
  apply shaped_2_inv in HF0 as (f00 & f01 & -> & Hf00 & Hf01).
  apply shaped_2_inv in HF1 as (f10 & f11 & -> & Hf10 & Hf11).
  rewrite bind_Ok, (bzip3_ok n), bind_Ok by done.
  rewrite (residual_ok n) by (rewrite length_zip_with; unfold shape1 in *; lia).
  rewrite bind_Ok.
  set (a := mjoin (tab n _)).
  assert (Ha : length a = N).
  { unfold a. rewrite flatten_pairs_length. lia. }
  rewrite (take_idx_total a p2).
  2:{ apply Forall_fmap, Forall_forall. intros m Hm%elem_of_seq. simpl.
      rewrite Ha. apply Hout. lia. }
  rewrite bind_Ok.
  assert (Hp2 : length ((λ k0, a !!! k0) <$> p2) = N).
  { unfold p2. by rewrite length_fmap, tab_length. }
  rewrite assign_all_same, bind_Ok by congruence.
  assert (Hres : (λ k0, a !!! k0) <$> p2
                 = (λ k0, angle (cdiv
                      (entry [[<[i:=r00]> A00; <[i:=r01]> A01];
                              [<[i:=r10]> A10; <[i:=r11]> A11]]
                             (k0 `mod` 2) 0 i (k0 `div` 2))
                      ((([[f00; f01]; [f10; f11]] !!! (k0 `mod` 2)) !!! 0)
                         !!! (k0 `div` 2)))) <$> p2).
  { apply list_fmap_ext. intros idx m Hm.
    apply list_lookup_fmap_Some in Hm as (m' & -> & Hm').
    apply lookup_seq in Hm' as [Hm' Hidx].
    specialize (Hout m' ltac:(lia)). set (m := route_out (2 ^ v) m') in *.
    pose proof (Nat.div_mod_eq m 2) as Hdm.
    pose proof (Nat.mod_upper_bound m 2 ltac:(lia)) as Hlt.
    assert (Hj : m `div` 2 < n) by lia.
    apply list_lookup_total_correct. unfold a.
    rewrite flatten_pairs by lia. unfold entry.
    assert (Hq : ∀ r f : list C, length r = n → length f = n →
              zip_with cdiv r f !!! (m `div` 2)
              = cdiv (r !!! (m `div` 2)) (f !!! (m `div` 2))).
    { intros r f Hr Hf. apply list_lookup_total_correct.
      rewrite lookup_zip_with.
      rewrite (list_lookup_lookup_total_lt r), (list_lookup_lookup_total_lt f)
        by lia. done. }
    destruct (m `mod` 2) as [|[|?]]; [| |lia]; simpl;
      rewrite Hq, Hget by done; done. }
  rewrite Hres. split; [done|].
  split; [|split]; cbn [s_Dij s_p_crossing s_phi_out].
  - fold n. apply shape4_intro; by apply row_scale_shape.
  - fold n. split; [by rewrite length_insert|]. by apply Forall_insert.
  - unfold shape1, p2. by rewrite length_fmap, tab_length.
Qed.

End SolverFacts.

(** ** The whole phase solver *)

Section ConfigureFacts.
Context `{Sc : Scalars}.
#[local] Existing Instance R_inhabited.
#[local] Existing Instance C_inhabited.

Lemma for_each_spec (X : Crossing) (k : nat) (l : list nat) (st : solver_state) :
  Forall (λ i, i + 2 ≤ 2 ^ k) l →
  state_ok (2 ^ k) st → crossing_ok X (2 ^ k `div` 2) →
  for_each (solve_layer X (2 ^ k)) l st = Ok (foldl (spec_layer X (2 ^ k)) st l)
  ∧ state_ok (2 ^ k) (foldl (spec_layer X (2 ^ k)) st l).
Proof.
  intros Hl Hst HX. revert st Hst.
  induction Hl as [|i l Hi _ IH]; intros st Hst; simpl; [done|].
  destruct (solve_layer_spec X k i st Hi Hst HX) as [-> Hst'].
  rewrite bind_Ok. by apply IH.
Qed.

Lemma phase_solver_spec (X : Crossing) (k : nat) (st : solver_state) :
  state_ok (2 ^ k) st → crossing_ok X (2 ^ k `div` 2) →
  phase_solver X (2 ^ k) st = Ok (spec_phase_solver X (2 ^ k) st)
  ∧ state_ok (2 ^ k) (spec_phase_solver X (2 ^ k) st).
Proof.
  intros Hst HX. unfold phase_solver, spec_phase_solver. rewrite arange_seq.
  apply for_each_spec; [|done..].
  apply Forall_forall. intros i Hi%elem_of_seq. lia.
Qed.

(** ** What survives a run that does not raise *)

Lemma for_each_preserves {A S} (P : S → Prop) (body : A → S → result S)
      (l : list A) (st st' : S) :
  (∀ a s s', body a s = Ok s' → P s → P s') →
  P st → for_each body l st = Ok st' → P st'.
Proof.
  intros Hbody. revert st. induction l as [|a l IH]; intros st Hst; simpl.
  - by intros [= <-].
  - destruct (body a st) as [s|e] eqn:Hs; [|done].
    rewrite bind_Ok. apply IH. by eapply Hbody.
Qed.

(** A bind that returns went through its first action. *)
Lemma bind_Ok_inv {A B} (m : result A) (f : A → result B) (b : B) :
  m ≫= f = Ok b → ∃ a, m = Ok a ∧ f a = Ok b.
Proof. destruct m as [a|e]; [eauto|done]. Qed.

Ltac inv_bind H :=
  repeat (let x := fresh "x" in
          let Hx := fresh "Hx" in
          apply bind_Ok_inv in H as (x & Hx & H));
  try (lazymatch type of H with
       | (let '(_, _) := ?p in _) = _ => destruct p; inv_bind H
       end).

Lemma solve_layer_calls (X : Crossing) (N i : nat) (st st' : solver_state) :
  solve_layer X N i st = Ok st' →
  ∃ t p, s_calls st' = s_calls st ++ [CallTsolve t "T1:" None; CallT p None].
Proof.
  unfold solve_layer. intros H. inv_bind H.
  injection H as <-. simpl. eauto.
Qed.

Lemma phase_solver_calls (X : Crossing) (N : nat) (st st' : solver_state) :
  Forall omits_splitter (s_calls st) →
  phase_solver X N st = Ok st' → Forall omits_splitter (s_calls st').
Proof.
  unfold phase_solver. intros Hst.
  apply (for_each_preserves (λ s, Forall omits_splitter (s_calls s))); [|done].
  intros i s s' (t & p & ->)%solve_layer_calls Hs.
  apply Forall_app. split; [done|]. by repeat constructor.
Qed.

(** ** The splitter imperfections *)

Lemma configure_trace_splitter (ps : ndarray R) (self : mesh) (N : nat)
      (M : matrix) :
  configure_trace (with_p_splitter ps self) N M = configure_trace self N M.
Proof. done. Qed.

Lemma configure_outputs_splitter (ps : ndarray R) (self : mesh) (N : nat)
      (M : matrix) :
  outputs (configure (with_p_splitter ps self) N M)
  = outputs (configure self N M).
Proof.
  unfold configure. rewrite configure_trace_splitter.
  destruct (configure_trace self N M) as [[D st]|e]; done.
Qed.

Lemma configure_keeps_splitter (self m : mesh) (N : nat) (M : matrix) :
  configure self N M = Ok m →
  m_p_splitter m = m_p_splitter self ∧ m_X m = m_X self.
Proof.
  unfold configure. intros H.
  destruct (configure_trace self N M) as [[D st]|e]; [|done].
  by injection H as <-.
Qed.

Lemma configure_trace_calls (self : mesh) (N : nat) (M : matrix) (D : tensor4)
      (st : solver_state) :
  configure_trace self N M = Ok (D, st) → Forall omits_splitter (s_calls st).
Proof.
  unfold configure_trace. intros H.
  destruct (is_MZICrossing (m_X self)); [|done]. inv_bind H.
  injection H as <- <-. eapply phase_solver_calls; [|done]. constructor.
Qed.

End ConfigureFacts.

(** ** The base case of the decomposition *)

Section DecomposeFacts.
Context `{Sc : Scalars}.
#[local] Existing Instance R_inhabited.
#[local] Existing Instance C_inhabited.

Lemma configButterfly_base (fuel : nat) (U : matrix) (w : view) (D : tensor4) :
  length U ≤ 2 → configButterfly (S fuel) U w D = write_block D w U.
Proof. intros HU. simpl. by rewrite decide_False by lia. Qed.

Lemma entry_ok (A : list (list C)) (l j : nat) :
  l < length A → j < length (A !!! l) →
  (row ← item A l; item row j) = Ok ((A !!! l) !!! j).
Proof. intros Hl Hj. by rewrite item_ok, bind_Ok, item_ok. Qed.

Lemma write_block_2x2 (w : view) (A00 A01 A10 A11 : list (list C))
      (u00 u01 u10 u11 : C) :
  v_l0 w < v_l1 w → v_j0 w < v_j1 w →
  Forall (λ A : list (list C),
            v_l0 w < length A ∧ v_j0 w < length (A !!! v_l0 w))
         [A00; A01; A10; A11] →
  write_block [[A00; A01]; [A10; A11]] w [[u00; u01]; [u10; u11]]
  = Ok [[alter (<[v_j0 w := u00]>) (v_l0 w) A00;
         alter (<[v_j0 w := u01]>) (v_l0 w) A01];
        [alter (<[v_j0 w := u10]>) (v_l0 w) A10;
         alter (<[v_j0 w := u11]>) (v_l0 w) A11]].
Proof.
  intros Hl Hj HA. unfold write_block. rewrite decide_True by done.
  apply Forall_cons in HA as [[? ?] HA]. apply Forall_cons in HA as [[? ?] HA].
  apply Forall_cons in HA as [[? ?] HA]. apply Forall_cons in HA as [[? ?] _].
  cbn [mapR]. rewrite !entry_ok by done. rewrite !bind_Ok.
  rewrite (assign_all2_same 2 2); [done| |]; split; try done;
    by repeat apply Forall_cons_2.
Qed.

Lemma decompose_2 (m00 m01 m10 m11 : C) :
  decompose 2 [[m00; m01]; [m10; m11]]
  = Ok [[[[m00]]; [[m01]]]; [[[m10]]; [[m11]]]].
Proof. done. Qed.

Lemma reshape3_2 (A : ndarray R) :
  length (nd_data A) = 2 →
  ∃ x y, reshape3 (2 - 1) (2 `div` 2) 2 A = Ok [[[x; y]]].
Proof.
  intros HA. unfold reshape3. destruct (nd_data A) as [|x [|y [|z l]]]; try done.
  by exists x, y.
Qed.

Lemma configure_trace_2 (self : mesh) (m00 m01 m10 m11 : C) (f0 f1 : R) :
  is_MZICrossing (m_X self) = true →
  m_phi_out self = [f0; f1] →
  length (nd_data (m_p_crossing self)) = 2 →
  crossing_ok (m_X self) 1 →
  ∃ st p,
    configure_trace self 2 [[m00; m01]; [m10; m11]]
    = Ok ([[[[m00]]; [[m01]]]; [[[m10]]; [[m11]]]], st)
    ∧ s_calls st
      = [CallTsolve ([cmul m00 (cexp (cmul c1j (of_real f0)))],
                     [cmul m01 (cexp (cmul c1j (of_real f1)))]) "T1:" None;
         CallT p None].
Proof.
  intros HX Hphi Hpc Hok. unfold configure_trace. rewrite HX, decompose_2, bind_Ok.
  destruct (reshape3_2 _ Hpc) as (x & y & ->). rewrite bind_Ok, Hphi.
  set (st0 := SolverState _ _ _ _).
  destruct (phase_solver_spec (m_X self) 1 st0) as [Hrun _].
  - unfold st0. repeat split; by repeat constructor.
  - done.
  - change (2 ^ 1) with 2 in Hrun. rewrite Hrun, bind_Ok.
    eexists _, _. split; [done|]. done.
Qed.

End DecomposeFacts.

(** ** The argument checks *)

Section ConstructorFacts.
Context `{Sc : Scalars}.
Context (init : super_args → result mesh).

Lemma check_args_both_or_neither (a : args) :
  is_none (a_N a) = is_none (a_M a) → check_args a = Err AssertionError.
Proof.
  intros H. unfold check_args. rewrite H.
  by destruct (is_none (a_M a)).
Qed.

Lemma assert_Ok (b : bool) (u : unit) : assert b = Ok u → b = true.
Proof. by destruct b. Qed.

Lemma check_args_Ok (a : args) (N : nat) :
  check_args a = Ok N →
  is_none (a_N a) ≠ is_none (a_M a) ∧ a_phi_pos a = "out"
  ∧ size_arg (a_N a) (a_M a) = Ok N ∧ ∃ k, N = 2 ^ k.
Proof.
  unfold check_args. intros H.
  apply bind_Ok_inv in H as (u1 & H1%assert_Ok & H).
  apply bind_Ok_inv in H as (u2 & H2%assert_Ok%bool_decide_eq_true & H).
  apply bind_Ok_inv in H as (n & H3 & H).
  apply bind_Ok_inv in H as (k & H4 & H).
  apply bind_Ok_inv in H as (u3 & H5%assert_Ok%bool_decide_eq_true & H).
  injection H as <-. split; [|by eauto].
  by destruct (is_none (a_N a)), (is_none (a_M a)).
Qed.

Lemma init_check (a : args) (e : exn) :
  check_args a = Err e → ButterflyNetwork_init init a = Err e.
Proof. unfold ButterflyNetwork_init. by intros ->. Qed.

Lemma init_Ok_check (a : args) (m : mesh) :
  ButterflyNetwork_init init a = Ok m → ∃ N, check_args a = Ok N.
Proof.
  unfold ButterflyNetwork_init. destruct (check_args a) as [N|]; [eauto|done].
Qed.

Lemma check_args_not_pow2 (a : args) (n : nat) :
  size_arg (a_N a) (a_M a) = Ok n → (∀ k, n ≠ 2 ^ k) →
  ∃ e, check_args a = Err e ∧ (0 < n → e = AssertionError).
Proof.
  intros Hn Hpow. destruct (check_args a) as [N|e] eqn:Hc.
  - apply check_args_Ok in Hc as (_ & _ & Hn' & k & ->).
    rewrite Hn in Hn'. injection Hn' as ->. by destruct (Hpow k).
  - exists e. split; [done|]. intros Hpos. revert Hc.
    unfold check_args, assert, int_log2. rewrite Hn.
    destruct (xorb _ _); [|by intros [= <-]]. simpl.
    case_bool_decide; [|by intros [= <-]]. simpl.
    rewrite decide_False by lia. simpl.
    case_bool_decide; [done|by intros [= <-]].
Qed.

Lemma init_stores_splitter (a : args) (m : mesh) :
  (∀ sa m', init sa = Ok m' → m_p_splitter m' = sa_p_splitter sa) →
  ButterflyNetwork_init init a = Ok m → m_p_splitter m = a_p_splitter a.
Proof.
  intros Hinit. unfold ButterflyNetwork_init.
  destruct (check_args a) as [N|]; [|done]. rewrite bind_Ok.
  destruct (topology N) as [[[lens shifts] perm]|]; [|done]. rewrite bind_Ok.
  destruct (init _) as [self|] eqn:Hself; [|done]. rewrite bind_Ok.
  apply Hinit in Hself. simpl in Hself.
  destruct (a_M a) as [M|].
  - intros [-> _]%configure_keeps_splitter. done.
  - by intros [= <-].
Qed.

End ConstructorFacts.

Lemma sym_crossing_ok (n : nat) : crossing_ok sym_crossing n.
Proof.
  split.
  - intros t0 t1 H0 H1. eexists _, _. split; [done|].
    split; [done|].
    apply Forall_cons_2; [|apply Forall_cons_2; [|apply Forall_nil_2]];
      unfold shape1; rewrite length_zip_with; simpl in *; lia.
  - intros p [Hp _]. eexists. split; [done|].
    assert (∀ a b, shape1 n ((λ row : list sym,
              SFwd a b (default SZero (row !! 0)) (default SZero (row !! 1)))
              <$> p)) as Hrow.
    { intros a b. unfold shape1. by rewrite length_fmap. }
    split; [done|].
    apply Forall_cons_2; [|apply Forall_cons_2; [|apply Forall_nil_2]];
      (split; [done|]);
      (apply Forall_cons_2; [|apply Forall_cons_2; [|apply Forall_nil_2]]);
      apply Hrow.
Qed.

(** * The claims *)

(** ** Runs of the model *)

Example strides_8 : strides 8 = Ok [1; 2; 1; 4; 1; 2; 1].
Proof. by vm_compute. Qed.

Example perm_pair_8_4 :
  perm_pair 8 4 = Ok ([0; 4; 1; 5; 2; 6; 3; 7], [0; 2; 4; 6; 1; 3; 5; 7]).
Proof. by vm_compute. Qed.

Example topology_8 :
  topology 8
  = Ok ([4; 4; 4; 4; 4; 4; 4], [0; 0; 0; 0; 0; 0; 0],
        [None; Some [0; 2; 1; 3; 4; 6; 5; 7]; Some [0; 2; 1; 3; 4; 6; 5; 7];
         Some [0; 4; 1; 5; 2; 6; 3; 7]; Some [0; 2; 4; 6; 1; 3; 5; 7];
         Some [0; 2; 1; 3; 4; 6; 5; 7]; Some [0; 2; 1; 3; 4; 6; 5; 7]; None]).
Proof. by vm_compute. Qed.

Example init_errors :
  ButterflyNetwork_init sym_container (sym_args (Some 6) None)
  = Err AssertionError
  ∧ ButterflyNetwork_init sym_container (sym_args None None)
    = Err AssertionError
  ∧ ButterflyNetwork_init sym_container
      (sym_args (Some 4) (Some (sym_matrix 4)))
    = Err AssertionError
  ∧ ButterflyNetwork_init sym_container (sym_args (Some 0) None)
    = Err TypeError
  ∧ ButterflyNetwork_init sym_container (sym_args None (Some []))
    = Err OverflowError.
Proof. by vm_compute. Qed.

Example init_4_calls :
  (λ r, match r with
        | Ok (_, st) => Ok (length (s_calls st))
        | Err e => Err e
        end)
    (configure_trace (sym_mesh 4 (NdArray [] [SZero])) 4 (sym_matrix 4))
  = Ok 6.
Proof. by vm_compute. Qed.

(** ** The topology *)

Lemma strides_lowest (N : nat) :
  ∃ l, strides N = Ok l ∧ length l = N - 1
       ∧ ∀ i, i < N - 1 → ∃ s, lowest_set_bit (i + 1) s ∧ l !! i = Some (2 ^ s).
Proof.
  unfold strides. rewrite arange_seq.
  rewrite (mapR_fmap stride (λ i, 2 ^ trailing_zeros (Pos.of_succ_nat i)))
    by (intros; apply stride_eq).
  eexists. split; [done|]. split; [by rewrite length_fmap, length_seq|].
  intros i Hi. destruct (stride_lowest i) as (s & Hs & Hstride).
  exists s. split; [done|].
  rewrite list_lookup_fmap, lookup_seq_lt by done. simpl.
  rewrite stride_eq in Hstride. by injection Hstride as ->.
Qed.

(** C3: the stride of layer [i] is [2^s] for [s] the position of the lowest
    set bit of [i+1], and the strides of a mesh of size [N] are these for
    the layers [0, ..., N-2]; the strides of the layers of a mesh of size 16
    are 1, 2, 1, 4, 1, 2, 1, 8, 1, 2, 1, 4, 1, 2, 1; layer 0 has stride 1; a mesh of size 4 has three
    layers of two crossings each, with strides 1, 2, 1. *)
Theorem C3_stride_lowest_set_bit :
  (∀ i, ∃ s, lowest_set_bit (i + 1) s ∧ stride i = Ok (2 ^ s))
  ∧ (∀ N, ∃ l, strides N = Ok l ∧ length l = N - 1
       ∧ ∀ i, i < N - 1 → ∃ s, lowest_set_bit (i + 1) s ∧ l !! i = Some (2 ^ s))
  ∧ strides 16 = Ok [1; 2; 1; 4; 1; 2; 1; 8; 1; 2; 1; 4; 1; 2; 1]
  ∧ stride 0 = Ok 1
  ∧ (∃ perm, topology 4 = Ok ([2; 2; 2], [0; 0; 0], perm))
  ∧ strides 4 = Ok [1; 2; 1].
Proof.
  split; [apply stride_lowest|].
  split; [apply strides_lowest|].
  split; [by vm_compute|]. split; [by vm_compute|].
  split; [|by vm_compute]. eexists. by vm_compute.
Qed.

(** C4, as stated, fails for [N = 4]: the last layer, [i = 2], has stride 1
    and not [N/2 = 2]. *)
Lemma C4_last_layer_counterexample : stride (4 - 2) ≠ Ok (4 `div` 2).
Proof. by vm_compute. Qed.

(** C4, amended: in a mesh of size [N = 2^k >= 4] the last layer,
    [i = N-2], has stride 1; the maximal stride [N/2] is the stride of the
    middle layer, [i = N/2 - 1], and no layer has a larger one. *)
Theorem C4_maximal_stride (k : nat) :
  2 ≤ k →
  stride (2 ^ k - 2) = Ok 1
  ∧ stride (2 ^ k `div` 2 - 1) = Ok (2 ^ k `div` 2)
  ∧ ∀ i s, i + 2 ≤ 2 ^ k → stride i = Ok s → s ≤ 2 ^ k `div` 2.
Proof.
  intros Hk.
  assert (Hhalf : 2 ^ k `div` 2 = 2 ^ (k - 1)).
  { replace k with (S (k - 1)) at 1 by lia.
    rewrite Nat.pow_succ_r', Nat.mul_comm, Nat.div_mul; done. }
  pose proof (pow2_pos (k - 1)) as Hpos.
  assert (Hk2 : 2 ^ k = 2 * 2 ^ (k - 1)).
  { replace k with (S (k - 1)) at 1 by lia. apply Nat.pow_succ_r'. }
  assert (H4 : 2 ≤ 2 ^ (k - 1)).
  { replace (k - 1) with (S (k - 2)) by lia. rewrite Nat.pow_succ_r'.
    pose proof (pow2_pos (k - 2)). lia. }
  split; [|split].
  - destruct (stride_factor (2 ^ k - 2)) as (v & t & -> & Hf).
    destruct v as [|v]; [done|].
    rewrite Nat.pow_succ_r' in Hf. lia.
  - rewrite Hhalf. destruct (stride_lowest (2 ^ (k - 1) - 1)) as (v & Hl & ->).
    replace (2 ^ (k - 1) - 1 + 1) with (2 ^ (k - 1)) in Hl by lia.
    assert (lowest_set_bit (2 ^ (k - 1)) (k - 1)) as Hl'.
    { split; [apply Nat.pow2_bits_true|].
      intros j Hj. apply Nat.pow2_bits_false. lia. }
    by rewrite (lowest_set_bit_unique _ _ _ Hl Hl').
  - intros i s Hi Hs.
    destruct (stride_in_mesh k i Hi) as (v & Hs' & _ & Hv).
    rewrite Hs' in Hs. injection Hs as <-. rewrite Hhalf.
    apply Nat.pow_le_mono_r; lia.
Qed.

Lemma C4_maximal_stride_witness :
  stride (2 ^ 3 - 2) = Ok 1
  ∧ stride (2 ^ 3 `div` 2 - 1) = Ok (2 ^ 3 `div` 2)
  ∧ ∀ i s, i + 2 ≤ 2 ^ 3 → stride i = Ok s → s ≤ 2 ^ 3 `div` 2.
Proof. apply (C4_maximal_stride 3). lia. Defined.

(** C5: in a mesh of size [N = 2^k], both permutation vectors of every
    layer [i <= N-2] are bijections on the modes [0, ..., N-1]; so is every
    entry of the list [perm] handed to the container; and rerouting the
    modes by all of them in propagation order is again a bijection. *)
Theorem C5_layer_permutations_bijective (k : nat) :
  (∀ i, i + 2 ≤ 2 ^ k →
     ∃ p1 p2, layer_perms (2 ^ k) i = Ok (p1, p2)
              ∧ bijection_on (2 ^ k) p1 ∧ bijection_on (2 ^ k) p2)
  ∧ (∃ ps v, all_layer_perms (2 ^ k) = Ok ps
             ∧ length ps = 2 * (2 ^ k - 1)
             ∧ compose_perms (2 ^ k) ps = Ok v ∧ bijection_on (2 ^ k) v)
  ∧ (∃ lens shifts perm v,
       topology (2 ^ k) = Ok (lens, shifts, perm)
       ∧ perm_ok (2 ^ k) perm
       ∧ compose_perms (2 ^ k) (perm_vectors (2 ^ k) perm) = Ok v
       ∧ bijection_on (2 ^ k) v).
Proof.
  split; [apply layer_perms_bijective|]. split.
  - destruct (all_layer_perms_bijective k) as (ps & Hps & Hlen & Hbij).
    destruct (compose_perms_bijection _ _ Hbij) as (v & Hv & Hvb).
    by exists ps, v.
  - destruct (topology_bijective k) as (perm & Ht & Hok).
    destruct (compose_perms_bijection _ _ (proj2 Hok)) as (v & Hv & Hvb).
    eexists _, _, perm, v. done.
Qed.

Lemma C5_layer_permutations_bijective_witness :
  ∃ p1 p2, layer_perms (2 ^ 3) 3 = Ok (p1, p2)
           ∧ bijection_on (2 ^ 3) p1 ∧ bijection_on (2 ^ 3) p2.
Proof. apply (proj1 (C5_layer_permutations_bijective 3) 3). simpl. lia. Defined.

(** C10: in a mesh of size [N = 2^k], the two permutation vectors of a layer
    [i <= N-2] are inverse to each other, entry by entry, and rerouting an
    array of [N] entries by [p1] and then by [p2] gives the array back. *)
Theorem C10_layer_permutations_inverse (k i : nat) :
  i + 2 ≤ 2 ^ k →
  ∃ p1 p2, layer_perms (2 ^ k) i = Ok (p1, p2)
    ∧ (∀ m, m < 2 ^ k → ∃ j, p1 !! m = Some j ∧ p2 !! j = Some m)
    ∧ (∀ m, m < 2 ^ k → ∃ j, p2 !! m = Some j ∧ p1 !! j = Some m)
    ∧ (∀ (A : Type) (phi : list A), length phi = 2 ^ k →
         ∃ w, Np.take_idx phi p1 = Ok w ∧ Np.take_idx w p2 = Ok phi).
Proof.
  intros Hi. destruct (layer_perms_eq k i Hi) as (v & Hv & _ & _ & Hl).
  pose proof (pow2_pos v) as Hs.
  pose proof (pow2_blocks k v Hv) as HN.
  assert (Hin : ∀ m, m < 2 ^ k → route_in (2 ^ v) m < 2 ^ k).
  { rewrite HN. intros. by apply route_in_lt. }
  assert (Hout : ∀ m, m < 2 ^ k → route_out (2 ^ v) m < 2 ^ k).
  { rewrite HN. intros. by apply route_out_lt. }
  eexists _, _. split; [exact Hl|]. split; [|split].
  - intros m Hm. exists (route_in (2 ^ v) m).
    rewrite !tab_lookup, route_out_in by auto. done.
  - intros m Hm. exists (route_out (2 ^ v) m).
    rewrite !tab_lookup, route_in_out by auto. done.
  - intros A phi Hphi. rewrite <- Hphi in *.
    apply take_idx_round_trip; [done..|].
    intros. by apply route_in_out.
Qed.

Lemma C10_layer_permutations_inverse_witness :
  ∃ p1 p2, layer_perms (2 ^ 3) 3 = Ok (p1, p2)
    ∧ (∀ m, m < 2 ^ 3 → ∃ j, p1 !! m = Some j ∧ p2 !! j = Some m)
    ∧ (∀ m, m < 2 ^ 3 → ∃ j, p2 !! m = Some j ∧ p1 !! j = Some m)
    ∧ (∀ (A : Type) (phi : list A), length phi = 2 ^ 3 →
         ∃ w, Np.take_idx phi p1 = Ok w ∧ Np.take_idx w p2 = Ok phi).
Proof. apply (C10_layer_permutations_inverse 3 3). simpl. lia. Defined.

(** ** The phase solver *)

(** C2: on a well-shaped state of a mesh of size [N = 2^k], with a crossing
    that answers its calls, the phase solver returns what the four steps of
    [spec_layer] (permute [phi_out] by the first permutation vector; absorb
    the even and odd phases into the two output ports of layer [i]; solve
    the layer's parameters in the mode ["T1:"] from [Dij[0,0,i]] and
    [Dij[0,1,i]]; set [phi_out] to the phase of [Dij] over the forward
    transfer matrix, rerouted by the second permutation vector) give when
    applied to the layers 0, 1, ..., N-2 in this order. *)
Theorem C2_phase_solver_steps `{Sc : Scalars} (X : Crossing) (k : nat)
        (st : solver_state) :
  state_ok (2 ^ k) st → crossing_ok X (2 ^ k `div` 2) →
  phase_solver X (2 ^ k) st = Ok (spec_phase_solver X (2 ^ k) st).
Proof.
  intros Hst HX. unfold phase_solver, spec_phase_solver. rewrite arange_seq.
  assert (Forall (λ i, i + 2 ≤ 2 ^ k) (seq 0 (2 ^ k - 1))) as Hlayers.
  { apply Forall_forall. intros i Hi%elem_of_seq. lia. }
  revert st Hst. induction Hlayers as [|i l Hi _ IH]; intros st Hst; [done|].
  cbn [for_each foldl].
  destruct (solve_layer_spec X k i st Hi Hst HX) as [-> Hst'].
  rewrite bind_Ok. by apply IH.
Qed.

Lemma sym_state_ok : state_ok (2 ^ 2) (sym_state 4).
Proof.
  split; [|split].
  - apply shape4_intro; (split; [done|]); by repeat apply Forall_cons_2.
  - split; [done|].
    repeat apply Forall_cons_2; try done;
      (split; [done|]); by repeat apply Forall_cons_2.
  - done.
Qed.

Lemma C2_phase_solver_steps_witness :
  phase_solver sym_crossing (2 ^ 2) (sym_state 4)
  = Ok (spec_phase_solver sym_crossing (2 ^ 2) (sym_state 4)).
Proof.
  apply (C2_phase_solver_steps sym_crossing 2 (sym_state 4)).
  - apply sym_state_ok.
  - apply sym_crossing_ok.
Defined.

(** ** The base case *)

(** C6: a block of size 2 (or less) is written into [Dij] at the first
    layer and first crossing of the view, without a recursive call: one
    unit of fuel is enough, and of the four arrays [Dij[a, b]] only the
    entry at that layer and crossing changes, to [U[a][b]].  For [N = 2]
    the decomposition leaves [Dij[:, :, 0, 0] = M], and the configuration
    calls [Tsolve] exactly once, on the first row of that block with the
    phases [phi_out] absorbed, followed by one call of [T]. *)
Theorem C6_base_case `{Sc : Scalars} :
  (∀ (U : matrix) (w : view) (D : tensor4),
     length U ≤ 2 → configButterfly 1 U w D = write_block D w U)
  ∧ (∀ (w : view) (A00 A01 A10 A11 : list (list C)) (u00 u01 u10 u11 : C),
       v_l0 w < v_l1 w → v_j0 w < v_j1 w →
       Forall (λ A : list (list C),
                 v_l0 w < length A
                 ∧ v_j0 w < length (default [] (A !! v_l0 w)))
              [A00; A01; A10; A11] →
       configButterfly 1 [[u00; u01]; [u10; u11]] w [[A00; A01]; [A10; A11]]
       = Ok [[alter (<[v_j0 w := u00]>) (v_l0 w) A00;
              alter (<[v_j0 w := u01]>) (v_l0 w) A01];
             [alter (<[v_j0 w := u10]>) (v_l0 w) A10;
              alter (<[v_j0 w := u11]>) (v_l0 w) A11]])
  ∧ (∀ (self : mesh) (m00 m01 m10 m11 : C) (f0 f1 : R),
       is_MZICrossing (m_X self) = true →
       m_phi_out self = [f0; f1] →
       length (nd_data (m_p_crossing self)) = 2 →
       crossing_ok (m_X self) 1 →
       ∃ st p,
         configure_trace self 2 [[m00; m01]; [m10; m11]]
         = Ok ([[[[m00]]; [[m01]]]; [[[m10]]; [[m11]]]], st)
         ∧ s_calls st
           = [CallTsolve ([cmul m00 (cexp (cmul c1j (of_real f0)))],
                          [cmul m01 (cexp (cmul c1j (of_real f1)))])
                         "T1:" None;
              CallT p None]).
Proof.
  split; [|split].
  - intros. by apply configButterfly_base.
  - intros w A00 A01 A10 A11 u00 u01 u10 u11 Hl Hj HA.
    rewrite configButterfly_base by done.
    apply write_block_2x2; [done..|].
    eapply Forall_impl; [exact HA|]. intros A [HAl HAj]. split; [done|].
    by rewrite (list_lookup_lookup_total_lt A _ HAl) in HAj.
  - apply configure_trace_2.
Qed.

Lemma C6_base_case_witness :
  ∃ st p,
    configure_trace (sym_mesh 2 (NdArray [] [SZero])) 2
      [[SVar "a"; SVar "b"]; [SVar "c"; SVar "d"]]
    = Ok ([[[[SVar "a"]]; [[SVar "b"]]]; [[[SVar "c"]]; [[SVar "d"]]]], st)
    ∧ s_calls st
      = [CallTsolve
           ([SMul (SVar "a") (SExp (SMul SImag (SOfReal (SVar "f0"))))],
            [SMul (SVar "b") (SExp (SMul SImag (SOfReal (SVar "f1"))))])
           "T1:" None;
         CallT p None].
Proof.
  apply (proj2 (proj2 C6_base_case) (sym_mesh 2 (NdArray [] [SZero]))
           (SVar "a") (SVar "b") (SVar "c") (SVar "d") (SVar "f0") (SVar "f1")).
  - reflexivity.
  - reflexivity.
  - reflexivity.
  - apply sym_crossing_ok.
Defined.

(** ** The splitter imperfections *)

(** C7, as stated, fails: there is no array of splitter imperfections, zero
    or not, for which the configuration computes another [p_crossing] or
    [phi_out] than for the scalar [0.]. *)
Lemma C7_p_splitter_counterexample :
  ¬ ∃ (Sc : Scalars) (self : mesh) (N : nat) (M : matrix) (ps : ndarray R),
      ps ≠ NdArray [] [r0]
      ∧ outputs (configure (with_p_splitter ps self) N M)
        ≠ outputs (configure (with_p_splitter (NdArray [] [r0]) self) N M).
Proof.
  intros (Sc & self & N & M & ps & _ & H). apply H.
  by rewrite !configure_outputs_splitter.
Qed.

(** C7, amended: the constructor hands [p_splitter] to the container as it
    got it, and the configuration leaves the attribute alone; the
    decomposition does not consume it: every call it makes on the crossing
    leaves the splitter argument out, and the run (the amplitudes [Dij],
    [p_crossing], [phi_out] and the calls made) is the same whatever
    [p_splitter] is. *)
Theorem C7_p_splitter_passed_through `{Sc : Scalars} :
  (∀ (init : super_args → result mesh) (a : args) (m : mesh),
     (∀ sa m', init sa = Ok m' → m_p_splitter m' = sa_p_splitter sa) →
     ButterflyNetwork_init init a = Ok m → m_p_splitter m = a_p_splitter a)
  ∧ (∀ (self : mesh) (N : nat) (M : matrix) (ps : ndarray R),
       configure_trace (with_p_splitter ps self) N M = configure_trace self N M
       ∧ outputs (configure (with_p_splitter ps self) N M)
         = outputs (configure self N M))
  ∧ (∀ (self : mesh) (N : nat) (M : matrix) (D : tensor4) (st : solver_state),
       configure_trace self N M = Ok (D, st) →
       Forall omits_splitter (s_calls st)).
Proof.
  split; [|split].
  - intros init a m. apply init_stores_splitter.
  - intros. split; [apply configure_trace_splitter|apply configure_outputs_splitter].
  - apply configure_trace_calls.
Qed.

Lemma sym_container_stores (sa : super_args) (m' : mesh) :
  sym_container sa = Ok m' → m_p_splitter m' = sa_p_splitter sa.
Proof. by intros [= <-]. Qed.

Lemma C7_p_splitter_passed_through_witness :
  ∃ m, ButterflyNetwork_init sym_container
         (sym_args_splitter (NdArray [1; 1; 1] [SVar "beta"]) (sym_matrix 2)) = Ok m
       ∧ m_p_splitter m
         = a_p_splitter
             (sym_args_splitter (NdArray [1; 1; 1] [SVar "beta"]) (sym_matrix 2)).
Proof.
  eexists. split; [vm_compute; reflexivity|].
  apply (proj1 C7_p_splitter_passed_through sym_container
           (sym_args_splitter (NdArray [1; 1; 1] [SVar "beta"]) (sym_matrix 2))).
  - apply sym_container_stores.
  - vm_compute. reflexivity.
Defined.

(** ** The argument checks *)

(** C8: when the size ([N], or [len(M)]) is not a power of two the
    constructor raises in the argument checks of lines 37-40, whatever the
    container and the crossing do: before the topology is set up, the
    container is called and anything is decomposed.  For a positive size
    the exception is the [AssertionError] of line 40. *)
Theorem C8_size_not_power_of_two `{Sc : Scalars}
        (init : super_args → result mesh) (a : args) (n : nat) :
  size_arg (a_N a) (a_M a) = Ok n → (∀ k, n ≠ 2 ^ k) →
  ∃ e, check_args a = Err e
       ∧ ButterflyNetwork_init init a = Err e
       ∧ (0 < n → e = AssertionError).
Proof.
  intros Hn Hpow.
  destruct (check_args_not_pow2 a n Hn Hpow) as (e & He & Hpos).
  exists e. split; [done|]. split; [by apply init_check|done].
Qed.

Lemma six_not_pow2 (k : nat) : 6 ≠ 2 ^ k.
Proof.
  destruct k as [|[|[|k]]]; [done..|].
  rewrite !Nat.pow_succ_r'. lia.
Qed.

Lemma C8_size_not_power_of_two_witness :
  ∃ e, check_args (sym_args (Some 6) None) = Err e
       ∧ ButterflyNetwork_init sym_container (sym_args (Some 6) None) = Err e
       ∧ (0 < 6 → e = AssertionError).
Proof.
  apply (C8_size_not_power_of_two sym_container (sym_args (Some 6) None) 6).
  - reflexivity.
  - apply six_not_pow2.
Defined.

(** C9: the constructor returns a mesh only if exactly one of [N] and [M]
    is given; with both, or with neither, it raises the [AssertionError] of
    line 37. *)
Theorem C9_exactly_one_of_N_and_M `{Sc : Scalars}
        (init : super_args → result mesh) (a : args) :
  (is_none (a_N a) = is_none (a_M a) →
   ButterflyNetwork_init init a = Err AssertionError)
  ∧ (∀ m, ButterflyNetwork_init init a = Ok m →
          is_none (a_N a) ≠ is_none (a_M a)).
Proof.
  split.
  - intros H. by apply init_check, check_args_both_or_neither.
  - intros m (N & HN)%init_Ok_check.
    by apply check_args_Ok in HN as (? & _).
Qed.

Lemma C9_exactly_one_of_N_and_M_witness :
  ButterflyNetwork_init sym_container (sym_args (Some 2) (Some (sym_matrix 2)))
  = Err AssertionError
  ∧ ButterflyNetwork_init sym_container (sym_args None None)
    = Err AssertionError.
Proof.
  split.
  - apply (proj1 (C9_exactly_one_of_N_and_M sym_container
                    (sym_args (Some 2) (Some (sym_matrix 2))))).
    reflexivity.
  - apply (proj1 (C9_exactly_one_of_N_and_M sym_container (sym_args None None))).
    reflexivity.
Defined.

(** * Further properties *)

(** ** The list [perm] *)

Lemma slice_assign2_lookup {A} (i j : nat) (a b : A) (l : list A) :
  i + 2 ≤ length l →
  slice_assign2 i a b l !! j
  = if decide (j = i) then Some a
    else if decide (j = i + 1) then Some b else l !! j.
Proof.
  intros Hi. unfold slice_assign2.
  destruct (decide (j < i)) as [Hlt|Hge].
  - rewrite lookup_app_l by (rewrite length_take; lia).
    rewrite lookup_take_lt by done. by rewrite !decide_False by lia.
  - rewrite lookup_app_r by (rewrite length_take; lia).
    rewrite length_take, Nat.min_l by lia.
    repeat case_decide; subst.
    + by rewrite Nat.sub_diag.
    + by replace (i + 1 - i) with 1 by lia.
    + destruct (j - i) as [|[|d]] eqn:Hd; [lia|lia|]. simpl.
      rewrite lookup_drop. f_equal. lia.
Qed.

Lemma slice_assign2_length {A} (i : nat) (a b : A) (l : list A) :
  i + 2 ≤ length l → length (slice_assign2 i a b l) = length l.
Proof.
  intros Hi. unfold slice_assign2.
  rewrite length_app, length_take. simpl. rewrite length_drop. lia.
Qed.

(** The state of [perm] after the loop of line 45 has handled the odd
    layers [1, 3, ..., 2*t - 1]. *)
Lemma topology_loop (k T t : nat) (perm0 : list (option (list nat))) :
  (∀ m, t ≤ m < t + T → 2 * m + 3 ≤ 2 ^ k) →
  length perm0 = 2 ^ k →
  (∀ j, j = 0 ∨ 2 * t < j → j < 2 ^ k → perm0 !! j = Some None) →
  (∀ m, m < t → ∃ p1 p2, layer_perms (2 ^ k) (2 * m + 1) = Ok (p1, p2)
                 ∧ perm0 !! (2 * m + 1) = Some (Some p1)
                 ∧ perm0 !! (2 * m + 2) = Some (Some p2)) →
  ∃ perm,
    for_each (λ i perm,
                s ← stride i;
                '(p1, p2) ← perm_pair (2 ^ k) s;
                Ok (slice_assign2 i (Some p1) (Some p2) perm))
             ((λ m, 1 + m * 2) <$> seq t T) perm0 = Ok perm
    ∧ length perm = 2 ^ k
    ∧ (∀ j, j = 0 ∨ 2 * (t + T) < j → j < 2 ^ k → perm !! j = Some None)
    ∧ (∀ m, m < t + T → ∃ p1 p2, layer_perms (2 ^ k) (2 * m + 1) = Ok (p1, p2)
                   ∧ perm !! (2 * m + 1) = Some (Some p1)
                   ∧ perm !! (2 * m + 2) = Some (Some p2)).
Proof.
  revert t perm0. induction T as [|T IH]; intros t perm0 HT Hlen Hnone Hdone.
  - exists perm0. rewrite Nat.add_0_r. done.
  - cbn [seq fmap list_fmap for_each].
    pose proof (HT t ltac:(lia)) as Ht.
    destruct (layer_perms_bijective k (1 + t * 2) ltac:(lia))
      as (p1 & p2 & Hl & _ & _).
    pose proof Hl as Hl'. unfold layer_perms in Hl'.
    destruct (stride (1 + t * 2)) as [s|]; [|done].
    rewrite bind_Ok in Hl'. rewrite bind_Ok, Hl', !bind_Ok.
    destruct (IH (S t) (slice_assign2 (1 + t * 2) (Some p1) (Some p2) perm0))
      as (perm & Hrun & Hlen' & Hnone' & Hdone').
    + intros m Hm. apply HT. lia.
    + rewrite slice_assign2_length; lia.
    + intros j Hj Hlt. rewrite slice_assign2_lookup by lia.
      rewrite !decide_False by lia. apply Hnone; [lia|done].
    + intros m Hm. destruct (decide (m = t)) as [->|Hne].
      * exists p1, p2. replace (2 * t + 1) with (1 + t * 2) by lia.
        split; [done|]. rewrite !slice_assign2_lookup by lia.
        rewrite decide_True by done.
        rewrite decide_False, decide_True by lia. done.
      * destruct (Hdone m ltac:(lia)) as (q1 & q2 & ? & ? & ?).
        exists q1, q2. rewrite !slice_assign2_lookup by lia.
        rewrite !decide_False by lia. done.
    + exists perm. replace (t + S T) with (S t + T) by lia. done.
Qed.

Lemma topology_perm (k : nat) :
  ∃ perm,
    topology (2 ^ k)
    = Ok (replicate (2 ^ k - 1) (2 ^ k `div` 2), replicate (2 ^ k - 1) 0, perm)
    ∧ length perm = 2 ^ k
    ∧ perm !! 0 = Some None
    ∧ perm !! (2 ^ k - 1) = Some None
    ∧ ∀ i, Nat.Odd i → i + 2 ≤ 2 ^ k →
        ∃ p1 p2, layer_perms (2 ^ k) i = Ok (p1, p2)
                 ∧ perm !! i = Some (Some p1)
                 ∧ perm !! (i + 1) = Some (Some p2).
Proof.
  pose proof (pow2_pos k) as Hpos.
  set (T := (2 ^ k - 1 - 1 + (2 - 1)) `div` 2).
  assert (HT : 2 * T + 2 ≤ 2 ^ k ∧ 2 ^ k ≤ 2 * T + 2 ∨ k = 0 ∧ T = 0).
  { unfold T. destruct k as [|k]; [right; done|left].
    pose proof (pow2_pos k) as Hh.
    rewrite Nat.pow_succ_r'. set (h := 2 ^ k) in *.
    replace (2 * h - 1 - 1 + (2 - 1)) with (1 + (h - 1) * 2) by lia.
    rewrite Nat.div_add by done. simpl. lia. }
  destruct (topology_loop k T 0 (replicate (2 ^ k) None))
    as (perm & Hrun & Hlen & Hnone & Hdone).
  - intros m Hm. destruct HT as [HT|[-> ->]]; simpl in *; lia.
  - by rewrite length_replicate.
  - intros j _ Hj. by apply lookup_replicate_2.
  - intros m Hm. lia.
  - exists perm. unfold topology, Np.arange3. fold T. rewrite Hrun, bind_Ok.
    split; [done|]. split; [done|]. split; [apply Hnone; [by left|done]|].
    split.
    + apply Hnone; [|lia]. destruct HT as [HT|[-> ->]]; [right; lia|by left].
    + intros i [m ->] Hi. replace (2 * m + 1 + 1) with (2 * m + 2) by lia.
      apply Hdone. destruct HT as [HT|[-> ->]]; simpl in *; lia.
Qed.

(** ** Layers of stride 1 *)

Lemma route_in_1 (m : nat) : route_in 1 m = m.
Proof.
  unfold route_in. pose proof (Nat.div_mod_eq m 2) as H.
  pose proof (Nat.mod_upper_bound m 2 ltac:(lia)) as Hlt.
  change (2 * 1) with 2.
  rewrite (Nat.div_small (m `mod` 2) 2), (Nat.mod_small (m `mod` 2) 2) by done.
  lia.
Qed.

Lemma route_out_1 (m : nat) : route_out 1 m = m.
Proof.
  unfold route_out. pose proof (Nat.div_mod_eq m 2) as H.
  change (2 * 1) with 2. rewrite Nat.mod_1_r, Nat.div_1_r. lia.
Qed.

Lemma tab_seq (n : nat) (f : nat → nat) :
  (∀ m, f m = m) → tab n f = seq 0 n.
Proof.
  intros Hf. unfold tab. rewrite <- (list_fmap_id (seq 0 n)) at 2.
  apply list_fmap_ext. intros; simpl. apply Hf.
Qed.

Lemma stride_even (i : nat) : Nat.Even i → stride i = Ok 1.
Proof.
  intros [t ->]. destruct (stride_factor (2 * t)) as (v & u & -> & Hf).
  destruct v as [|v]; [reflexivity|]. rewrite Nat.pow_succ_r' in Hf. lia.
Qed.

Lemma perm_pair_1 (n : nat) :
  0 < n → perm_pair (2 * n) 1 = Ok (seq 0 (2 * n), seq 0 (2 * n)).
Proof.
  intros Hn. replace (2 * n) with (n * (2 * 1)) by lia.
  rewrite perm_pair_eq by lia.
  by rewrite (tab_seq _ _ route_in_1), (tab_seq _ _ route_out_1).
Qed.

Lemma take_idx_seq {A} (v : list A) :
  Np.take_idx v (seq 0 (length v)) = Ok v.
Proof.
  apply take_idx_Ok. apply Forall2_same_length_lookup_2.
  - by rewrite length_seq.
  - intros i j x Hj%lookup_seq Hx. destruct Hj as [-> _]. done.
Qed.

(** ** The argument checks that pass *)

Section CheckFacts.
Context `{Sc : Scalars}.
Context (init : super_args → result mesh).

Lemma assert_true : assert true = Ok ().
Proof. done. Qed.

Lemma check_args_pow2 (a : args) (k : nat) :
  is_none (a_N a) ≠ is_none (a_M a) → a_phi_pos a = "out" →
  size_arg (a_N a) (a_M a) = Ok (2 ^ k) →
  check_args a = Ok (2 ^ k).
Proof.
  intros Hxor Hpos Hsize. unfold check_args.
  replace (xorb _ _) with true
    by (by destruct (is_none (a_N a)), (is_none (a_M a))).
  rewrite bool_decide_eq_true_2 by done.
  rewrite !assert_true, !bind_Ok, Hsize, bind_Ok.
  unfold int_log2. pose proof (pow2_pos k).
  rewrite decide_False, bind_Ok by lia.
  rewrite Nat.log2_pow2 by lia.
  by rewrite bool_decide_eq_true_2, assert_true.
Qed.

Lemma check_args_phi_pos (a : args) :
  a_phi_pos a ≠ "out" → check_args a = Err AssertionError.
Proof.
  intros Hpos. unfold check_args.
  destruct (xorb _ _); [|done]. rewrite assert_true, bind_Ok.
  by rewrite bool_decide_eq_false_2.
Qed.

Lemma init_matrix_steps (a : args) (k : nat) (M : matrix) :
  a_N a = None → a_M a = Some M → length M = 2 ^ k → a_phi_pos a = "out" →
  ∃ perm,
    topology (2 ^ k)
    = Ok (replicate (2 ^ k - 1) (2 ^ k `div` 2), replicate (2 ^ k - 1) 0, perm)
    ∧ ButterflyNetwork_init init a
      = (self ← init (SuperArgs (2 ^ k) (replicate (2 ^ k - 1) (2 ^ k `div` 2))
                        (replicate (2 ^ k - 1) 0) (a_p_phase a) (a_p_splitter a)
                        (a_p_crossing a) (a_phi_out a) perm (a_X a) "out");
         configure self (2 ^ k) M).
Proof.
  intros HN HM Hlen Hpos. destruct (topology_perm k) as (perm & Htop & _).
  exists perm. split; [done|]. unfold ButterflyNetwork_init.
  rewrite (check_args_pow2 a k), bind_Ok, Htop, bind_Ok, HM, Hpos.
  - done.
  - by rewrite HN, HM.
  - done.
  - rewrite HN, HM. simpl. by rewrite Hlen.
Qed.

End CheckFacts.

(** ** The calls of the phase solver *)

Section SolverRuns.
Context `{Sc : Scalars}.
#[local] Existing Instance R_inhabited.
#[local] Existing Instance C_inhabited.

Lemma for_each_calls (X : Crossing) (N : nat) (l : list nat)
      (st st' : solver_state) :
  for_each (solve_layer X N) l st = Ok st' →
  ∃ ts ps, length ts = length l ∧ length ps = length l
    ∧ s_calls st'
      = s_calls st
        ++ mjoin (zip_with (λ t p, [CallTsolve t "T1:" None; CallT p None])
                           ts ps).
Proof.
  revert st. induction l as [|i l IH]; intros st; simpl.
  - intros [= <-]. exists [], []. by rewrite app_nil_r.
  - intros (st1 & H1 & Hrest)%bind_Ok_inv.
    apply solve_layer_calls in H1 as (t & p & H1).
    destruct (IH st1 Hrest) as (ts & ps & Hts & Hps & Hcalls).
    exists (t :: ts), (p :: ps). simpl. rewrite Hts, Hps.
    split; [done|]. split; [done|].
    by rewrite Hcalls, H1, <- app_assoc.
Qed.

(** ** An output-phase array of the wrong length *)

Lemma take_idx_short {A} (v : list A) (n : nat) :
  length v < n → Np.take_idx v (seq 0 n) = Err IndexError.
Proof.
  intros Hlen. unfold Np.take_idx.
  destruct (mapM _ _) as [w|] eqn:E; [|done].
  apply mapM_Some_1 in E.
  destruct (Forall2_lookup_l _ _ _ (length v) (length v) E) as (x & _ & Hx).
  { apply lookup_seq. lia. }
  apply lookup_lt_Some in Hx. lia.
Qed.

Lemma take_idx_long {A} (v : list A) (n : nat) :
  n ≤ length v → Np.take_idx v (seq 0 n) = Ok (take n v).
Proof.
  intros Hlen. apply take_idx_Ok. apply Forall2_same_length_lookup_2.
  - rewrite length_seq, length_take. lia.
  - intros i j x Hj%lookup_seq Hx. destruct Hj as [-> Hj].
    simpl. by rewrite lookup_take_lt in Hx.
Qed.

Lemma assign_all_mismatch {A} (v w : list A) :
  2 ≤ length w → length w < length v → assign_all v w = Err ValueError.
Proof.
  intros Hw Hv. unfold assign_all, bzip1, bzip.
  rewrite decide_False by lia.
  destruct v as [|a [|b v]]; simpl in *; try lia.
  destruct w as [|c [|d w]]; simpl in *; try lia. done.
Qed.

Lemma solve_layer_0_phi_out (X : Crossing) (n : nat) (st : solver_state) :
  0 < n →
  (length (s_phi_out st) < 2 * n →
   solve_layer X (2 * n) 0 st = Err IndexError)
  ∧ (2 * n < length (s_phi_out st) →
     solve_layer X (2 * n) 0 st = Err ValueError).
Proof.
  intros Hn. unfold solve_layer.
  rewrite (stride_even 0) by (by exists 0).
  rewrite bind_Ok, perm_pair_1, bind_Ok by done. split; intros Hlen.
  - by rewrite take_idx_short.
  - rewrite take_idx_long, bind_Ok by lia.
    rewrite assign_all_mismatch; [done|rewrite length_take; lia..].
Qed.

(** ** The crossing parameters the caller passed *)

Lemma spec_layers_p_crossing (X : Crossing) (N : nat) (T a : nat)
      (st1 st2 : solver_state) :
  s_Dij st1 = s_Dij st2 → s_phi_out st1 = s_phi_out st2 →
  s_calls st1 = s_calls st2 →
  length (s_p_crossing st1) = length (s_p_crossing st2) →
  a + T ≤ length (s_p_crossing st1) →
  (∀ l, l < a → s_p_crossing st1 !! l = s_p_crossing st2 !! l) →
  s_Dij (foldl (spec_layer X N) st1 (seq a T))
  = s_Dij (foldl (spec_layer X N) st2 (seq a T))
  ∧ s_phi_out (foldl (spec_layer X N) st1 (seq a T))
    = s_phi_out (foldl (spec_layer X N) st2 (seq a T))
  ∧ s_calls (foldl (spec_layer X N) st1 (seq a T))
    = s_calls (foldl (spec_layer X N) st2 (seq a T))
  ∧ length (s_p_crossing (foldl (spec_layer X N) st1 (seq a T)))
    = length (s_p_crossing (foldl (spec_layer X N) st2 (seq a T)))
  ∧ ∀ l, l < a + T →
      s_p_crossing (foldl (spec_layer X N) st1 (seq a T)) !! l
      = s_p_crossing (foldl (spec_layer X N) st2 (seq a T)) !! l.
Proof.
  revert a st1 st2.
  induction T as [|T IH]; intros a st1 st2 HD Hphi Hc Hlen Ha Hpc.
  - simpl. rewrite Nat.add_0_r. done.
  - cbn [seq foldl].
    replace (a + S T) with (S a + T) by lia.
    destruct st1 as [D pc1 phi calls], st2 as [D2 pc2 phi2 calls2].
    simpl in HD, Hphi, Hc, Hlen, Ha, Hpc. subst D2 phi2 calls2.
    apply IH; unfold spec_layer; destruct (perms_of N a) as [p1 p2];
      cbn [s_Dij s_p_crossing s_phi_out s_calls]; unfold spec_params, spec_residual.
    + done.
    + by rewrite !list_lookup_total_insert_eq by lia.
    + by rewrite !list_lookup_total_insert_eq by lia.
    + by rewrite !length_insert.
    + rewrite length_insert. lia.
    + intros l Hl. rewrite !list_lookup_insert. rewrite <- Hlen.
      case_decide; [done|]. apply Hpc. lia.
Qed.

Lemma solver_state_eq (st1 st2 : solver_state) :
  s_Dij st1 = s_Dij st2 → s_p_crossing st1 = s_p_crossing st2 →
  s_phi_out st1 = s_phi_out st2 → s_calls st1 = s_calls st2 → st1 = st2.
Proof. destruct st1, st2. simpl. by intros -> -> -> ->. Qed.

End SolverRuns.

(** ** The entries the decomposition writes *)

Lemma shaped_lookup_total `{Inhabited A} (P : A → Prop) (n i : nat) (l : list A) :
  shaped P n l → i < n → P (l !!! i).
Proof. intros [Hlen HP] Hi. apply Forall_lookup_total_1; [done|lia]. Qed.

Lemma shaped_insert {A} (P : A → Prop) (n i : nat) (l : list A) (x : A) :
  shaped P n l → P x → shaped P n (<[i := x]> l).
Proof.
  intros [Hlen HP] Hx. split; [by rewrite length_insert|by apply Forall_insert].
Qed.

Lemma shaped_fmap {A B} (P : A → Prop) (Q : B → Prop) (f : A → B) (n : nat)
      (l : list A) :
  (∀ x, P x → Q (f x)) → shaped P n l → shaped Q n (f <$> l).
Proof.
  intros HPQ [Hlen HP]. split; [by rewrite length_fmap|].
  apply Forall_fmap. eapply Forall_impl; [done|]. done.
Qed.

Lemma insert_lookup_total `{Inhabited A} (l : list A) (i k : nat) (x : A) :
  i < length l → <[i := x]> l !!! k = if decide (k = i) then x else l !!! k.
Proof.
  intros Hi. case_decide as Hk.
  - subst k. by rewrite list_lookup_total_insert_eq.
  - by rewrite list_lookup_total_insert_ne.
Qed.

Lemma splice_length {A} (row vec : list A) (j0 j1 : nat) :
  j0 ≤ j1 → j1 ≤ length row → length vec = j1 - j0 →
  length (take j0 row ++ vec ++ drop (j0 + (j1 - j0)) row) = length row.
Proof.
  intros H0 H1 Hv. rewrite !length_app, length_take, length_drop. lia.
Qed.

Lemma splice_lookup_total `{Inhabited A} (row vec : list A) (j0 j1 j : nat) :
  j0 ≤ j1 → j1 ≤ length row → length vec = j1 - j0 →
  (take j0 row ++ vec ++ drop (j0 + (j1 - j0)) row) !!! j
  = if decide (j0 ≤ j < j1) then vec !!! (j - j0) else row !!! j.
Proof.
  intros H0 H1 Hv. rewrite !list_lookup_total_alt.
  destruct (decide (j < j0)) as [Hlt|Hge].
  - rewrite lookup_app_l by (rewrite length_take; lia).
    rewrite lookup_take_lt by done. by rewrite decide_False by lia.
  - rewrite lookup_app_r by (rewrite length_take; lia).
    rewrite length_take, Nat.min_l by lia.
    destruct (decide (j < j1)) as [Hlt|Hge'].
    + rewrite lookup_app_l by lia. by rewrite decide_True by lia.
    + rewrite lookup_app_r by lia. rewrite lookup_drop, decide_False by lia.
      do 2 f_equal. lia.
Qed.

Section Footprint.
Context `{Sc : Scalars}.
#[local] Existing Instance R_inhabited.
#[local] Existing Instance C_inhabited.

Lemma write_row_spec (L J : nat) (w : view) (a b k : nat) (vec : list C)
      (D : tensor4) :
  a < 2 → b < 2 → v_l0 w + k < v_l1 w → v_l1 w ≤ L →
  v_j0 w ≤ v_j1 w → v_j1 w ≤ J → length vec = v_j1 w - v_j0 w →
  shape4 2 2 L J D →
  ∃ D', write_row D w a b k vec = Ok D' ∧ shape4 2 2 L J D'
    ∧ ∀ a' b' l j,
        entry D' a' b' l j
        = if decide (a' = a ∧ b' = b ∧ l = v_l0 w + k
                     ∧ v_j0 w ≤ j < v_j1 w)
          then vec !!! (j - v_j0 w) else entry D a' b' l j.
Proof.
  intros Ha Hb Hk HL Hj HJ Hvec HD.
  pose proof (shaped_lookup_total _ _ a _ HD Ha) as HDa.
  pose proof (shaped_lookup_total _ _ b _ HDa Hb) as HDab.
  assert (Hlt : v_l0 w + k < L) by lia.
  pose proof (shaped_lookup_total _ _ (v_l0 w + k) _ HDab Hlt) as Hrow.
  set (row := ((D !!! a) !!! b) !!! (v_l0 w + k)) in *.
  unfold shape1 in Hrow.
  set (row' := take (v_j0 w) row ++ vec
               ++ drop (v_j0 w + (v_j1 w - v_j0 w)) row).
  assert (Hrow' : length row' = J).
  { unfold row'. rewrite splice_length; [done|lia..]. }
  exists (<[a := <[b := <[v_l0 w + k := row']> ((D !!! a) !!! b)]> (D !!! a)]> D).
  split; [|split].
  - unfold write_row. rewrite decide_True by done.
    destruct HD as [HD1 _], HDa as [HDa1 _], HDab as [HDab1 _].
    apply update_at_ok; [lia|]. apply update_at_ok; [lia|].
    apply update_at_ok; [lia|]. fold row.
    rewrite assign_all_same, bind_Ok; [done|].
    rewrite length_take, length_drop. lia.
  - apply shaped_insert; [done|]. apply shaped_insert; [done|].
    by apply shaped_insert.
  - intros a' b' l j. unfold entry.
    destruct HD as [HD1 _], HDa as [HDa1 _], HDab as [HDab1 _].
    rewrite insert_lookup_total by lia.
    destruct (decide (a' = a)) as [->|Hna]; [|by rewrite decide_False by tauto].
    rewrite insert_lookup_total by lia.
    destruct (decide (b' = b)) as [->|Hnb]; [|by rewrite decide_False by tauto].
    rewrite insert_lookup_total by lia.
    destruct (decide (l = v_l0 w + k)) as [->|Hnl];
      [|by rewrite decide_False by tauto].
    unfold row'. rewrite splice_lookup_total; [|lia|lia|done].
    fold row. case_decide; [by rewrite decide_True by tauto|].
    by rewrite decide_False by tauto.
Qed.

Lemma alter_insert_lookup_total (A : list (list C)) (l0 j0 l j : nat) (u : C) :
  l0 < length A → j0 < length (A !!! l0) →
  (alter (<[j0 := u]>) l0 A !!! l) !!! j
  = if decide (l = l0 ∧ j = j0) then u else (A !!! l) !!! j.
Proof.
  intros Hl Hj.
  assert (alter (<[j0 := u]>) l0 A = <[l0 := <[j0 := u]> (A !!! l0)]> A) as ->.
  { apply list_eq. intros i. rewrite list_lookup_alter, list_lookup_insert.
    case_decide as Hi.
    - subst i. rewrite decide_True by done.
      by rewrite (list_lookup_lookup_total_lt A l0 Hl).
    - by rewrite decide_False by tauto. }
  rewrite insert_lookup_total by done.
  destruct (decide (l = l0)) as [->|Hnl]; [|by rewrite decide_False by tauto].
  rewrite insert_lookup_total by done.
  case_decide; [by rewrite decide_True by tauto|by rewrite decide_False by tauto].
Qed.

Lemma alter_insert_shape (L J l0 j0 : nat) (u : C) (A : list (list C)) :
  shape2 L J A → shape2 L J (alter (<[j0 := u]>) l0 A).
Proof.
  intros [Hlen HA]. split; [by rewrite length_alter|].
  apply Forall_alter; [done|]. intros row _ Hrow. unfold shape1 in *.
  by rewrite length_insert.
Qed.

Lemma write_block_spec (L J : nat) (w : view) (U : matrix) (D : tensor4) :
  v_l0 w < v_l1 w → v_l1 w ≤ L → v_j0 w < v_j1 w → v_j1 w ≤ J →
  shape2 2 2 U → shape4 2 2 L J D →
  ∃ D', write_block D w U = Ok D' ∧ shape4 2 2 L J D'
    ∧ ∀ a b l j, a < 2 → b < 2 →
        entry D' a b l j
        = if decide (l = v_l0 w ∧ j = v_j0 w)
          then (U !!! a) !!! b else entry D a b l j.
Proof.
  intros Hl HL Hj HJ HU HD.
  apply shaped_2_inv in HU as (r0 & r1 & -> & H0 & H1).
  destruct r0 as [|u00 [|u01 [|]]]; try done.
  destruct r1 as [|u10 [|u11 [|]]]; try done.
  apply shape4_inv in HD as (A00 & A01 & A10 & A11 & -> & H00 & H01 & H10 & H11).
  assert (∀ A : list (list C), shape2 L J A →
            v_l0 w < length A ∧ v_j0 w < length (A !!! v_l0 w)) as Hin.
  { intros A HA. pose proof (shape2_row L J (v_l0 w) A HA ltac:(lia)).
    destruct HA as [HA _]. lia. }
  eexists. split; [|split].
  - apply write_block_2x2; [done..|]. repeat apply Forall_cons_2; auto.
  - apply shape4_intro; by apply alter_insert_shape.
  - intros a b l j Ha Hb. unfold entry.
    destruct a as [|[|a]]; [| |lia]; destruct b as [|[|b]]; try lia;
      cbn [lookup_total list_lookup_total];
      rewrite alter_insert_lookup_total by (by apply Hin); done.
Qed.

(** *** The shapes of the matrices of one level *)

Lemma omap_lookup_length {A} (j : nat) (B : list (list A)) :
  Forall (λ r, j < length r) B →
  length (omap (λ row : list A, row !! j) B) = length B.
Proof.
  induction 1 as [|r B Hr _ IH]; [done|]. cbn [omap list_omap].
  destruct (lookup_lt_is_Some_2 r j Hr) as [x ->]. simpl. by rewrite IH.
Qed.

Lemma transpose_shape2 {A} (m n : nat) (B : list (list A)) :
  0 < m → shape2 m n B → shape2 n m (transpose B).
Proof.
  intros Hm [Hlen HB]. unfold transpose.
  assert (length (default [] (head B)) = n) as ->.
  { destruct B as [|r B]; simpl in *; [lia|]. by inversion HB. }
  split; [by rewrite length_fmap, length_seq|].
  apply Forall_fmap, Forall_forall. intros j Hj%elem_of_seq. simpl.
  unfold shape1. rewrite <- Hlen. apply omap_lookup_length.
  eapply Forall_impl; [exact HB|]. intros r Hr. unfold shape1 in Hr. simpl. lia.
Qed.

Lemma ctranspose_shape (n : nat) (A : matrix) :
  0 < n → shape2 n n A → shape2 n n (ctranspose A).
Proof.
  intros Hn HA. unfold ctranspose.
  eapply shaped_fmap; [|by apply transpose_shape2].
  intros row Hrow. unfold shape1 in *. by rewrite length_fmap.
Qed.

Lemma dot_shape (m k n : nat) (A B : matrix) :
  0 < k → shape2 m k A → shape2 k n B →
  ∃ M, dot A B = Ok M ∧ shape2 m n M.
Proof.
  intros Hk [HA1 HA2] HB. apply (transpose_shape2 k n B Hk) in HB as [HB1 HB2].
  unfold dot.
  destruct (mapR_Forall (λ row, mapR (vdot row) (transpose B)) (shape1 n) A)
    as (M & HM & Hlen & HMs).
  - eapply Forall_impl; [exact HA2|]. intros row Hrow. simpl.
    destruct (mapR_Forall (vdot row) (λ _, True) (transpose B))
      as (v & Hv & Hlenv & _).
    + eapply Forall_impl; [exact HB2|]. intros col Hcol. simpl.
      unfold vdot. rewrite decide_True by (unfold shape1 in *; congruence).
      eauto.
    + exists v. split; [done|]. unfold shape1. congruence.
  - exists M. split; [done|]. split; [congruence|done].
Qed.

Lemma blocks_shape {A} (h : nat) (U : list (list A)) :
  shape2 (2 * h) (2 * h) U →
  shape2 h h (take h <$> take h U) ∧ shape2 h h (drop h <$> take h U)
  ∧ shape2 h h (take h <$> drop h U) ∧ shape2 h h (drop h <$> drop h U).
Proof.
  intros HU. repeat split.
  all: try (rewrite length_fmap; first [rewrite length_take|rewrite length_drop];
            destruct HU as [HU _]; lia).
  all: apply Forall_fmap;
    (eapply Forall_impl;
     [first [apply Forall_take|apply Forall_drop]; apply HU|]);
    intros r Hr; unfold shape1 in *; simpl;
    first [rewrite length_take|rewrite length_drop]; lia.
Qed.

Lemma diag_length {A} (n : nat) (M : list (list A)) :
  shape2 n n M → length (diag M) = n.
Proof.
  intros [Hlen HM]. unfold diag. rewrite Hlen.
  assert (∀ l, Forall (λ k, k < n) l →
            length (omap (λ k, row ← M !! k; row !! k) l) = length l) as Hl.
  { induction 1 as [|k l Hk _ IH]; [done|]. cbn [omap list_omap].
    destruct (lookup_lt_is_Some_2 M k) as [row Hrow]; [lia|].
    rewrite Hrow. cbn [mbind option_bind].
    pose proof (Forall_lookup_1 _ _ _ _ HM Hrow) as Hr. unfold shape1 in Hr.
    destruct (lookup_lt_is_Some_2 row k) as [x ->]; [lia|].
    simpl. by rewrite IH. }
  rewrite Hl, length_seq; [done|].
  apply Forall_forall. intros k Hk%elem_of_seq. lia.
Qed.

(** *** The recursion *)

Lemma sub_views (L J h q : nat) (w : view) :
  h = 2 * q → view_ok L J (2 * h) w →
  sub w lo lo h q = View (v_l0 w) (v_l0 w + h) (v_j0 w) (v_j0 w + q)
  ∧ sub w lo hi h q = View (v_l0 w) (v_l0 w + h) (v_j0 w + q) (v_j1 w)
  ∧ sub w hi lo h q = View (v_l0 w + h) (v_l1 w) (v_j0 w) (v_j0 w + q)
  ∧ sub w hi hi h q = View (v_l0 w + h) (v_l1 w) (v_j0 w + q) (v_j1 w).
Proof.
  intros Hh (Hl & HL & Hj & HJ).
  rewrite (Nat.mul_comm 2 h), Nat.div_mul in Hj by lia.
  destruct w as [l0 l1 j0 j1]. unfold sub, lo, hi. simpl in *.
  repeat split; f_equal; lia.
Qed.

Lemma configButterfly_fills (L J : nat) :
  svd_ok → ∀ (k : nat) (U : matrix) (w : view),
  shape2 (2 ^ S k) (2 ^ S k) U → view_ok L J (2 ^ S k) w →
  ∃ g : nat → nat → nat → nat → C, ∀ fuel D, k < fuel → shape4 2 2 L J D →
    ∃ D', configButterfly fuel U w D = Ok D' ∧ shape4 2 2 L J D'
      ∧ ∀ a b l j, a < 2 → b < 2 →
          entry D' a b l j
          = if decide (in_block w (2 ^ S k) l j) then g a b l j
            else entry D a b l j.
Proof.
  intros Hsvd k. induction k as [|k IH]; intros U w HU Hw.
  - exists (λ a b _ _, (U !!! a) !!! b). intros fuel D Hfuel HD.
    destruct fuel as [|fuel]; [lia|].
    change (2 ^ 1) with 2 in *.
    rewrite configButterfly_base by (destruct HU as [-> _]; done).
    destruct Hw as (Hl & HL & Hj & HJ). change (2 `div` 2) with 1 in Hj.
    destruct (write_block_spec L J w U D) as (D' & HD' & Hshape & Hentry);
      [lia..|done|done|].
    exists D'. split; [done|]. split; [done|].
    intros a b l j Ha Hb. rewrite Hentry by done.
    unfold in_block. repeat case_decide; try done; lia.
  - assert (Hq : 0 < 2 ^ k) by apply pow2_pos.
    assert (Hh : 2 ^ S k = 2 * 2 ^ k) by apply Nat.pow_succ_r'.
    assert (Hn : 2 ^ S (S k) = 2 * 2 ^ S k) by apply Nat.pow_succ_r'.
    rewrite Hn in *. clear Hn.
    generalize dependent (2 ^ S k). intros h IH HU Hw Hh.
    generalize dependent (2 ^ k). intros q Hq Hh.
    destruct (blocks_shape h U HU) as (H11 & H12 & H21 & H22).
    destruct (Hsvd h _ H11) as (V1 & D11 & W1 & Hsvd1 & HV1 & HD11 & HW1).
    destruct (Hsvd h _ H22) as (V2 & D22 & W2 & Hsvd2 & HV2 & HD22 & HW2).
    destruct (dot_shape h h h (ctranspose V1) (drop h <$> take h U))
      as (A1 & HA1 & HA1s); [lia|by apply ctranspose_shape; [lia|]|done|].
    destruct (dot_shape h h h A1 (ctranspose W2))
      as (A2 & HA2 & HA2s); [lia|done|by apply ctranspose_shape; [lia|]|].
    destruct (dot_shape h h h (ctranspose V2) (take h <$> drop h U))
      as (B1 & HB1 & HB1s); [lia|by apply ctranspose_shape; [lia|]|done|].
    destruct (dot_shape h h h B1 (ctranspose W1))
      as (B2 & HB2 & HB2s); [lia|done|by apply ctranspose_shape; [lia|]|].
    destruct (sub_views L J h q w Hh Hw) as (Hll & Hlh & Hhl & Hhh).
    destruct Hw as (Hl & HL & Hj & HJ).
    rewrite (Nat.mul_comm 2 h), Nat.div_mul in Hj by lia.
    assert (Hhq : h `div` 2 = q).
    { rewrite Hh, (Nat.mul_comm 2 q), Nat.div_mul; lia. }
    destruct (IH W1 (sub w lo lo h q)) as [g1 Hg1]; [done| |].
    { rewrite Hll. unfold view_ok. cbn [v_l0 v_l1 v_j0 v_j1]. rewrite Hhq. lia. }
    destruct (IH W2 (sub w lo hi h q)) as [g2 Hg2]; [done| |].
    { rewrite Hlh. unfold view_ok. cbn [v_l0 v_l1 v_j0 v_j1]. rewrite Hhq. lia. }
    destruct (IH V1 (sub w hi lo h q)) as [g3 Hg3]; [done| |].
    { rewrite Hhl. unfold view_ok. cbn [v_l0 v_l1 v_j0 v_j1]. rewrite Hhq. lia. }
    destruct (IH V2 (sub w hi hi h q)) as [g4 Hg4]; [done| |].
    { rewrite Hhh. unfold view_ok. cbn [v_l0 v_l1 v_j0 v_j1]. rewrite Hhq. lia. }
    exists (λ a b l j,
      if decide (in_block (sub w hi hi h q) h l j) then g4 a b l j else
      if decide (in_block (sub w hi lo h q) h l j) then g3 a b l j else
      if decide (in_block (sub w lo hi h q) h l j) then g2 a b l j else
      if decide (in_block (sub w lo lo h q) h l j) then g1 a b l j else
      if decide (a = 1 ∧ b = 0 ∧ l = v_l0 w + (h - 1) ∧ v_j0 w ≤ j < v_j1 w)
      then diag B2 !!! (j - v_j0 w) else
      if decide (a = 1 ∧ b = 1 ∧ l = v_l0 w + (h - 1) ∧ v_j0 w ≤ j < v_j1 w)
      then (of_real <$> D22) !!! (j - v_j0 w) else
      if decide (a = 0 ∧ b = 1 ∧ l = v_l0 w + (h - 1) ∧ v_j0 w ≤ j < v_j1 w)
      then diag A2 !!! (j - v_j0 w) else
      if decide (a = 0 ∧ b = 0 ∧ l = v_l0 w + (h - 1) ∧ v_j0 w ≤ j < v_j1 w)
      then (of_real <$> D11) !!! (j - v_j0 w) else c0).
    intros fuel D Hfuel HD. destruct fuel as [|fuel]; [lia|].
    cbn [configButterfly].
    destruct HU as [HU1 HU2]. rewrite HU1.
    replace ((2 * h) `div` 2) with h
      by (by rewrite (Nat.mul_comm 2 h), Nat.div_mul).
    replace ((2 * h) `div` 4) with q
      by (rewrite Hh; replace (2 * (2 * q)) with (q * 4) by lia;
          by rewrite Nat.div_mul).
    rewrite decide_True by lia.
    rewrite Hsvd1, bind_Ok. cbv beta iota.
    rewrite Hsvd2, bind_Ok. cbv beta iota.
    destruct (write_row_spec L J w 0 0 (h - 1) (of_real <$> D11) D)
      as (D1 & HD1 & Hs1 & E1); [lia..|rewrite length_fmap; lia|done|].
    rewrite HD1, bind_Ok, HA1, bind_Ok, HA2, bind_Ok.
    destruct (write_row_spec L J w 0 1 (h - 1) (diag A2) D1)
      as (D2 & HD2 & Hs2 & E2); [lia..|rewrite (diag_length h); [lia|done]|done|].
    rewrite HD2, bind_Ok.
    destruct (write_row_spec L J w 1 1 (h - 1) (of_real <$> D22) D2)
      as (D3 & HD3 & Hs3 & E3); [lia..|rewrite length_fmap; lia|done|].
    rewrite HD3, bind_Ok, HB1, bind_Ok, HB2, bind_Ok.
    destruct (write_row_spec L J w 1 0 (h - 1) (diag B2) D3)
      as (D4 & HD4 & Hs4 & E4); [lia..|rewrite (diag_length h); [lia|done]|done|].
    rewrite HD4, bind_Ok.
    destruct (Hg1 fuel D4 ltac:(lia) Hs4) as (D5 & HD5 & Hs5 & E5).
    rewrite HD5, bind_Ok.
    destruct (Hg2 fuel D5 ltac:(lia) Hs5) as (D6 & HD6 & Hs6 & E6).
    rewrite HD6, bind_Ok.
    destruct (Hg3 fuel D6 ltac:(lia) Hs6) as (D7 & HD7 & Hs7 & E7).
    rewrite HD7, bind_Ok.
    destruct (Hg4 fuel D7 ltac:(lia) Hs7) as (D8 & HD8 & Hs8 & E8).
    exists D8. split; [done|]. split; [done|].
    intros a b l j Ha Hb.
    rewrite E8, E7, E6, E5, E4, E3, E2, E1 by done.
    rewrite Hll, Hlh, Hhl, Hhh. unfold in_block. cbn [v_l0 v_l1 v_j0 v_j1].
    repeat case_decide; try done; lia.
Qed.

(** *** The whole array *)

Lemma list_ext_total `{Inhabited A} (n : nat) (l1 l2 : list A) :
  length l1 = n → length l2 = n →
  (∀ i, i < n → l1 !!! i = l2 !!! i) → l1 = l2.
Proof.
  intros H1 H2 Heq. apply list_eq. intros i.
  destruct (decide (i < n)) as [Hi|Hi].
  - rewrite (list_lookup_lookup_total_lt l1 i), (list_lookup_lookup_total_lt l2 i)
      by lia. by rewrite Heq.
  - rewrite !lookup_ge_None_2; [done|lia..].
Qed.

Lemma shape4_ext (K I L J : nat) (D1 D2 : tensor4) :
  shape4 K I L J D1 → shape4 K I L J D2 →
  (∀ a b l j, a < K → b < I → l < L → j < J →
     entry D1 a b l j = entry D2 a b l j) →
  D1 = D2.
Proof.
  intros H1 H2 Heq.
  apply (list_ext_total K); [apply H1|apply H2|]. intros a Ha.
  pose proof (shaped_lookup_total _ _ a _ H1 Ha) as H1a.
  pose proof (shaped_lookup_total _ _ a _ H2 Ha) as H2a.
  apply (list_ext_total I); [apply H1a|apply H2a|]. intros b Hb.
  pose proof (shaped_lookup_total _ _ b _ H1a Hb) as H1b.
  pose proof (shaped_lookup_total _ _ b _ H2a Hb) as H2b.
  apply (list_ext_total L); [apply H1b|apply H2b|]. intros l Hl.
  pose proof (shaped_lookup_total _ _ l _ H1b Hl) as H1l.
  pose proof (shaped_lookup_total _ _ l _ H2b Hl) as H2l.
  apply (list_ext_total J); [apply H1l|apply H2l|]. intros j Hj.
  by apply Heq.
Qed.

Lemma zeros4_shape (N : nat) : shape4 2 2 (N - 1) (N `div` 2) (zeros4 N).
Proof.
  unfold zeros4.
  repeat (split; [by rewrite length_replicate|apply Forall_replicate]).
  unfold shape1. by rewrite length_replicate.
Qed.

Lemma top_view_ok (N : nat) :
  view_ok (N - 1) (N `div` 2) N (View 0 (N - 1) 0 (N `div` 2)).
Proof. unfold view_ok. simpl. lia. Qed.

Lemma pow2_gt (k : nat) : k < 2 ^ k.
Proof. apply Nat.pow_gt_lin_r. lia. Qed.

Lemma decompose_fills (k : nat) (M : matrix) :
  svd_ok → shape2 (2 ^ S k) (2 ^ S k) M →
  ∃ D, decompose (2 ^ S k) M = Ok D
    ∧ shape4 2 2 (2 ^ S k - 1) (2 ^ S k `div` 2) D
    ∧ ∀ fuel D0, k < fuel → shape4 2 2 (2 ^ S k - 1) (2 ^ S k `div` 2) D0 →
        configButterfly fuel M (View 0 (2 ^ S k - 1) 0 (2 ^ S k `div` 2)) D0
        = Ok D.
Proof.
  intros Hsvd HM.
  destruct (configButterfly_fills (2 ^ S k - 1) (2 ^ S k `div` 2) Hsvd k M
              (View 0 (2 ^ S k - 1) 0 (2 ^ S k `div` 2)) HM (top_view_ok _))
    as [g Hg].
  assert (Hfuel : k < S (length M)).
  { destruct HM as [-> _]. pose proof (pow2_gt (S k)). lia. }
  destruct (Hg _ _ Hfuel (zeros4_shape _)) as (D & HD & Hshape & Hentry).
  exists D. split; [done|]. split; [done|].
  intros fuel D0 Hf HD0.
  destruct (Hg _ _ Hf HD0) as (D' & -> & Hshape' & Hentry').
  f_equal. apply (shape4_ext 2 2 (2 ^ S k - 1) (2 ^ S k `div` 2)); [done..|].
  intros a b l j Ha Hb Hl Hj. rewrite Hentry, Hentry' by done.
  rewrite !decide_True; [done|unfold in_block; cbn [v_l0 v_l1 v_j0 v_j1]; lia..].
Qed.
End Footprint.

(** ** The configuration as a whole *)




Section ConfigureRuns.
Context `{Sc : Scalars}.
#[local] Existing Instance R_inhabited.
#[local] Existing Instance C_inhabited.



End ConfigureRuns.

(** ** The symbolic instance *)

Lemma tab_shape2 {A} (m n : nat) (f : nat → nat → A) :
  shape2 m n (tab m (λ i, tab n (f i))).
Proof.
  split; [apply tab_length|]. unfold tab at 1.
  apply Forall_fmap, Forall_forall. intros i _. apply tab_length.
Qed.

Lemma sym_svd_ok : svd_ok.
Proof.
  intros n A [<- _]. eexists _, _, _. split; [done|].
  split; [apply tab_shape2|]. split; [apply tab_length|apply tab_shape2].
Qed.

Lemma sym_matrix_shape (n : nat) : shape2 n n (sym_matrix n).
Proof. apply tab_shape2. Qed.

(** ** What the solver does to [Dij] *)

Lemma tab_lookup_total `{Inhabited A} (n i : nat) (f : nat → A) :
  i < n → tab n f !!! i = f i.
Proof. intros Hi. apply list_lookup_total_correct. by apply tab_lookup. Qed.

Section SolverAmplitudes.
Context `{Sc : Scalars}.
#[local] Existing Instance R_inhabited.
#[local] Existing Instance C_inhabited.

Lemma entry_tab4 (N : nat) (f : nat → nat → nat → nat → C) (a b l j : nat) :
  a < 2 → b < 2 → l < N - 1 → j < N `div` 2 →
  entry (tab4 N f) a b l j = f a b l j.
Proof.
  intros Ha Hb Hl Hj. unfold entry, tab4.
  by rewrite !tab_lookup_total by done.
Qed.

Lemma spec_layer_Dij (X : Crossing) (N i : nat) (st : solver_state) :
  ∃ phi, s_Dij (spec_layer X N st i) = spec_absorb N i phi (s_Dij st).
Proof.
  unfold spec_layer. destruct (perms_of N i) as [p1 p2]. by eexists.
Qed.

Lemma spec_layers_Dij (X : Crossing) (N T a0 : nat) (st : solver_state)
      (a b l j : nat) :
  a < 2 → b < 2 → l < N - 1 → j < N `div` 2 →
  (a0 ≤ l < a0 + T →
   ∃ f : R,
     entry (s_Dij (foldl (spec_layer X N) st (seq a0 T))) a b l j
     = cmul (entry (s_Dij st) a b l j) (cexp (cmul c1j (of_real f))))
  ∧ (¬ a0 ≤ l < a0 + T →
     entry (s_Dij (foldl (spec_layer X N) st (seq a0 T))) a b l j
     = entry (s_Dij st) a b l j).
Proof.
  intros Ha Hb Hl Hj. revert a0 st.
  induction T as [|T IH]; intros a0 st; cbn [seq foldl].
  - split; [lia|done].
  - destruct (IH (S a0) (spec_layer X N st a0)) as [IHin IHout].
    destruct (spec_layer_Dij X N a0 st) as [phi Hphi].
    assert (Hstep : entry (s_Dij (spec_layer X N st a0)) a b l j
                    = if decide (l = a0)
                      then cmul (entry (s_Dij st) a b l j)
                             (cexp (cmul c1j (of_real (phi !!! (2 * j + b)))))
                      else entry (s_Dij st) a b l j).
    { rewrite Hphi. unfold spec_absorb. by rewrite entry_tab4. }
    split; intros Hin.
    + destruct (Nat.eq_dec l a0) as [Heq|Hne].
      * exists (phi !!! (2 * j + b)).
        rewrite IHout by lia. by rewrite Hstep, decide_True.
      * destruct IHin as [f Hf]; [lia|]. exists f.
        by rewrite Hf, Hstep, decide_False.
    + rewrite IHout by lia. rewrite Hstep, decide_False; [done|lia].
Qed.
End SolverAmplitudes.

(** * Beyond the claims *)

Lemma sym_container_keeps_X (sa : super_args) (self : mesh) :
  sym_container sa = Ok self → m_X self = sa_X sa.
Proof. by intros [= <-]. Qed.

Lemma sym_params_shape : shape3 (2 ^ 2 - 1) (2 ^ 2 `div` 2) 2 (sym_params 4).
Proof.
  split; [done|].
  repeat apply Forall_cons_2; try done;
    (split; [done|]); by repeat apply Forall_cons_2.
Qed.

(** ** The topology (lines 44-48) *)

(** X1: for [N = 2^k] the topology has [N-1] layers of [N/2] crossings, all
    with shift 0, and a list [perm] of [N] entries: the first and the last
    are [None], and every odd layer [i <= N-3] has put the first permutation
    vector of its stride at [perm[i]] and the second at [perm[i+1]]. *)
Theorem X1_topology_layout (k : nat) :
  ∃ perm,
    topology (2 ^ k)
    = Ok (replicate (2 ^ k - 1) (2 ^ k `div` 2), replicate (2 ^ k - 1) 0, perm)
    ∧ length perm = 2 ^ k
    ∧ perm !! 0 = Some None ∧ perm !! (2 ^ k - 1) = Some None
    ∧ ∀ i, Nat.Odd i → i + 2 ≤ 2 ^ k →
        ∃ p1 p2, layer_perms (2 ^ k) i = Ok (p1, p2)
                 ∧ perm !! i = Some (Some p1)
                 ∧ perm !! (i + 1) = Some (Some p2).
Proof. apply topology_perm. Qed.

(** X2: an even layer has stride 1, and both its permutation vectors are
    the identity [0, 1, ..., N-1] for every even size [N > 0]: rerouting
    [phi_out] by them gives [phi_out] back. *)
Theorem X2_unit_stride_layers {A} (n i : nat) (phi : list A) :
  Nat.Even i → 0 < n → length phi = 2 * n →
  stride i = Ok 1
  ∧ layer_perms (2 * n) i = Ok (seq 0 (2 * n), seq 0 (2 * n))
  ∧ Np.take_idx phi (seq 0 (2 * n)) = Ok phi.
Proof.
  intros Hi Hn Hphi. split; [by apply stride_even|]. split.
  - unfold layer_perms. rewrite stride_even, bind_Ok by done.
    by apply perm_pair_1.
  - rewrite <- Hphi. apply take_idx_seq.
Qed.

Lemma X2_unit_stride_layers_witness :
  stride 2 = Ok 1
  ∧ layer_perms (2 * 3) 2 = Ok (seq 0 (2 * 3), seq 0 (2 * 3))
  ∧ Np.take_idx [10; 11; 12; 13; 14; 15] (seq 0 (2 * 3))
    = Ok [10; 11; 12; 13; 14; 15].
Proof.
  apply (X2_unit_stride_layers 3 2 [10; 11; 12; 13; 14; 15]).
  - exists 1. reflexivity.
  - lia.
  - reflexivity.
Defined.

(** X3: in layer [i] of a mesh of size [N = 2^k], of stride [s], the
    first permutation vector brings to the two ports of crossing [j] the
    modes [m] and [m + s] of one block of [2*s] modes, [m] in the lower
    half of the block. *)
Theorem X3_crossing_pairs (k i : nat) :
  i + 2 ≤ 2 ^ k →
  ∃ v p1 p2,
    stride i = Ok (2 ^ v) ∧ layer_perms (2 ^ k) i = Ok (p1, p2)
    ∧ ∀ j, j < 2 ^ k `div` 2 →
        ∃ m, p1 !! (2 * j) = Some m ∧ p1 !! (2 * j + 1) = Some (m + 2 ^ v)
             ∧ m `mod` (2 * 2 ^ v) < 2 ^ v ∧ m + 2 ^ v < 2 ^ k.
Proof.
  intros Hi. destruct (layer_perms_eq k i Hi) as (v & Hv & _ & Hs & Hl).
  exists v. eexists _, _. split; [done|]. split; [done|].
  intros j Hj. pose proof (pow2_pos v) as Hspos.
  pose proof (pow2_half k ltac:(lia)) as HN.
  set (s := 2 ^ v) in *.
  pose proof (Nat.div_mod_eq j s) as Hdm.
  pose proof (Nat.mod_upper_bound j s ltac:(lia)) as Ha.
  set (K := j `div` s) in *. set (a := j `mod` s) in *.
  assert (H0 : route_in s (2 * j) = K * (2 * s) + (a + 0 * s)).
  { rewrite <- (route_in_block s K a 0) by lia. f_equal. lia. }
  assert (H1 : route_in s (2 * j + 1) = K * (2 * s) + (a + 1 * s)).
  { rewrite <- (route_in_block s K a 1) by lia. f_equal. lia. }
  exists (K * (2 * s) + a).
  rewrite !tab_lookup by lia. rewrite H0, H1.
  split; [f_equal; lia|]. split; [f_equal; lia|]. split.
  - rewrite Nat.add_comm, Nat.Div0.mod_add, Nat.mod_small; lia.
  - pose proof (pow2_blocks k v Hv) as Hb. fold s in Hb.
    pose proof (route_in_lt s (2 ^ (k - v - 1)) (2 * j + 1) Hspos) as Hlt.
    rewrite <- Hb in Hlt. specialize (Hlt ltac:(lia)). lia.
Qed.

Lemma X3_crossing_pairs_witness :
  ∃ v p1 p2,
    stride 3 = Ok (2 ^ v) ∧ layer_perms (2 ^ 3) 3 = Ok (p1, p2)
    ∧ ∀ j, j < 2 ^ 3 `div` 2 →
        ∃ m, p1 !! (2 * j) = Some m ∧ p1 !! (2 * j + 1) = Some (m + 2 ^ v)
             ∧ m `mod` (2 * 2 ^ v) < 2 ^ v ∧ m + 2 ^ v < 2 ^ 3.
Proof. apply (X3_crossing_pairs 3 3). simpl. lia. Defined.

(** ** The argument checks (lines 37-40) *)

(** X4: the checks of lines 37-40 pass, with the size [N], exactly when
    one of [N] and [M] is given, [phi_pos] is ['out'], and the size, the
    nonzero [N] or else [len(M)], is a power of two; the size 1 is one. *)
Theorem X4_checks_accept `{Sc : Scalars} (a : args) (N : nat) :
  check_args a = Ok N
  ↔ is_none (a_N a) ≠ is_none (a_M a) ∧ a_phi_pos a = "out"
    ∧ size_arg (a_N a) (a_M a) = Ok N ∧ ∃ k, N = 2 ^ k.
Proof.
  split; [apply check_args_Ok|].
  intros (? & ? & ? & k & ->). by apply check_args_pow2.
Qed.

(** X5: a [phi_pos] other than ['out'] makes the constructor raise an
    [AssertionError], whatever the other arguments and the container. *)
Theorem X5_phi_pos_out_only `{Sc : Scalars}
        (init : super_args → result mesh) (a : args) :
  a_phi_pos a ≠ "out" → ButterflyNetwork_init init a = Err AssertionError.
Proof. intros Hpos. by apply init_check, check_args_phi_pos. Qed.

Lemma X5_phi_pos_out_only_witness :
  ButterflyNetwork_init sym_container
    (sym_args_with (Some 4) None sym_crossing "in")
  = Err AssertionError.
Proof.
  apply (X5_phi_pos_out_only (Sc:=sym_scalars) sym_container
           (sym_args_with (Some 4) None sym_crossing "in")).
  simpl. discriminate.
Defined.

(** X6: a size of zero passes the check of line 37 and raises later: with
    [N = 0] and no matrix, [len(M)] of line 39 is a [TypeError]; with an
    empty matrix, [int(np.log2(0))] of line 40 is an [OverflowError]. *)
Theorem X6_size_zero `{Sc : Scalars}
        (init : super_args → result mesh) (a : args) :
  a_phi_pos a = "out" →
  (a_N a = Some 0 → a_M a = None → ButterflyNetwork_init init a = Err TypeError)
  ∧ (a_N a = None → a_M a = Some [] →
     ButterflyNetwork_init init a = Err OverflowError).
Proof.
  intros Hpos. split; intros HN HM; apply init_check; unfold check_args;
    rewrite HN, HM, Hpos; done.
Qed.

Lemma X6_size_zero_witness :
  ButterflyNetwork_init sym_container (sym_args (Some 0) None) = Err TypeError
  ∧ ButterflyNetwork_init sym_container (sym_args None (Some []))
    = Err OverflowError.
Proof.
  split.
  - apply (proj1 (X6_size_zero (Sc:=sym_scalars) sym_container
                    (sym_args (Some 0) None) eq_refl)); reflexivity.
  - apply (proj2 (X6_size_zero (Sc:=sym_scalars) sym_container
                    (sym_args None (Some [])) eq_refl)); reflexivity.
Defined.

(** ** The constructor without and with a matrix *)

(** X7: given only a size [N = 2^k], the constructor is the call of the
    container's constructor, with [N], the [lens], [shifts] and [perm] of
    the topology and the caller's other arguments: its result or its
    exception is the constructor's, and the crossing type is not looked
    at. *)
Theorem X7_size_only `{Sc : Scalars}
        (init : super_args → result mesh) (a : args) (k : nat) :
  a_N a = Some (2 ^ k) → a_M a = None → a_phi_pos a = "out" →
  ∃ perm,
    topology (2 ^ k)
    = Ok (replicate (2 ^ k - 1) (2 ^ k `div` 2), replicate (2 ^ k - 1) 0, perm)
    ∧ ButterflyNetwork_init init a
      = init (SuperArgs (2 ^ k) (replicate (2 ^ k - 1) (2 ^ k `div` 2))
                (replicate (2 ^ k - 1) 0) (a_p_phase a) (a_p_splitter a)
                (a_p_crossing a) (a_phi_out a) perm (a_X a) "out").
Proof.
  intros HN HM Hpos. destruct (topology_perm k) as (perm & Htop & _).
  exists perm. split; [done|]. unfold ButterflyNetwork_init.
  rewrite (check_args_pow2 a k), bind_Ok, Htop, bind_Ok, HM, Hpos.
  - by destruct (init _).
  - by rewrite HN, HM.
  - done.
  - rewrite HN, HM. pose proof (pow2_pos k).
    simpl. destruct (2 ^ k); [lia|done].
Qed.

Lemma X7_size_only_witness :
  ∃ perm,
    topology (2 ^ 2)
    = Ok (replicate (2 ^ 2 - 1) (2 ^ 2 `div` 2), replicate (2 ^ 2 - 1) 0, perm)
    ∧ ButterflyNetwork_init sym_container
        (sym_args_with (Some (2 ^ 2)) None sym_other_crossing "out")
      = sym_container
          (SuperArgs (2 ^ 2) (replicate (2 ^ 2 - 1) (2 ^ 2 `div` 2))
             (replicate (2 ^ 2 - 1) 0) (NdArray [] [SZero])
             (NdArray [] [SZero]) None None perm sym_other_crossing "out").
Proof.
  apply (X7_size_only (Sc:=sym_scalars) sym_container
           (sym_args_with (Some (2 ^ 2)) None sym_other_crossing "out") 2);
    reflexivity.
Defined.

(** X8: with a matrix and a crossing that is not an [MZICrossing], the
    constructor raises: the container's exception if the container raises,
    and else the [AssertionError] of line 55, provided the container stores
    the crossing it is given. *)
Theorem X8_matrix_needs_MZI `{Sc : Scalars}
        (init : super_args → result mesh) (a : args) (k : nat) (M : matrix) :
  a_N a = None → a_M a = Some M → length M = 2 ^ k → a_phi_pos a = "out" →
  is_MZICrossing (a_X a) = false →
  (∀ sa self, init sa = Ok self → m_X self = sa_X sa) →
  ∃ sa, ButterflyNetwork_init init a = (_ ← init sa; Err AssertionError).
Proof.
  intros HN HM Hlen Hpos HX Hinit.
  destruct (init_matrix_steps init a k M HN HM Hlen Hpos) as (perm & _ & ->).
  eexists. destruct (init _) as [self|e] eqn:Hself; [|by rewrite Hself].
  rewrite Hself, !bind_Ok. apply Hinit in Hself. simpl in Hself.
  unfold configure, configure_trace. by rewrite Hself, HX.
Qed.

Lemma X8_matrix_needs_MZI_witness :
  ∃ sa, ButterflyNetwork_init sym_container
          (sym_args_with None (Some (sym_matrix 4)) sym_other_crossing "out")
        = (_ ← sym_container sa; Err AssertionError).
Proof.
  apply (X8_matrix_needs_MZI (Sc:=sym_scalars) sym_container
           (sym_args_with None (Some (sym_matrix 4)) sym_other_crossing "out")
           2 (sym_matrix 4)); try reflexivity.
  apply sym_container_keeps_X.
Defined.

(** X9: a 1×1 matrix passes the checks, 1 being a power of two, and the
    container is called with [N = 1]; then the decomposition raises the
    [IndexError] of [Dij[:, :, 0, 0] = U], for [Dij] has no layer and no
    crossing. *)
Theorem X9_matrix_1x1 `{Sc : Scalars}
        (init : super_args → result mesh) (a : args) (M : matrix) :
  a_N a = None → a_M a = Some M → length M = 1 → a_phi_pos a = "out" →
  is_MZICrossing (a_X a) = true →
  (∀ sa self, init sa = Ok self → m_X self = sa_X sa) →
  check_args a = Ok 1
  ∧ ∃ sa, sa_N sa = 1
          ∧ ButterflyNetwork_init init a = (_ ← init sa; Err IndexError).
Proof.
  intros HN HM Hlen Hpos HX Hinit. split.
  - apply (check_args_pow2 a 0); [by rewrite HN, HM|done|].
    rewrite HN, HM. simpl. by rewrite Hlen.
  - destruct (init_matrix_steps init a 0 M HN HM Hlen Hpos) as (perm & _ & ->).
    eexists. split; [|destruct (init _) as [self|e] eqn:Hself;
                       [|by rewrite Hself]]; [done|].
    rewrite Hself, !bind_Ok. apply Hinit in Hself. simpl in Hself.
    unfold configure, configure_trace. rewrite Hself, HX.
    unfold decompose. rewrite configButterfly_base by (rewrite Hlen; lia).
    done.
Qed.

Lemma X9_matrix_1x1_witness :
  check_args (sym_args None (Some (sym_matrix 1))) = Ok 1
  ∧ ∃ sa, sa_N sa = 1
          ∧ ButterflyNetwork_init sym_container
              (sym_args None (Some (sym_matrix 1)))
            = (_ ← sym_container sa; Err IndexError).
Proof.
  apply (X9_matrix_1x1 (Sc:=sym_scalars) sym_container
           (sym_args None (Some (sym_matrix 1))) (sym_matrix 1));
    try reflexivity.
  apply sym_container_keeps_X.
Defined.

(** ** The decomposition (lines 58-69) *)

(** X10: on a [2^(k+1)]×[2^(k+1)] matrix, with an [svd] that answers, the
    decomposition returns an array of the shape [2, 2, N-1, N/2] of [Dij];
    the recursion is [k+1] calls deep, so that any bound above [k] on the
    depth gives the same array. *)
Theorem X10_decomposition_returns `{Sc : Scalars} (k : nat) (M : matrix) :
  svd_ok → shape2 (2 ^ S k) (2 ^ S k) M →
  ∃ D, decompose (2 ^ S k) M = Ok D
    ∧ shape4 2 2 (2 ^ S k - 1) (2 ^ S k `div` 2) D
    ∧ ∀ fuel, k < fuel →
        configButterfly fuel M (View 0 (2 ^ S k - 1) 0 (2 ^ S k `div` 2))
          (zeros4 (2 ^ S k))
        = Ok D.
Proof.
  intros Hsvd HM. destruct (decompose_fills k M Hsvd HM) as (D & HD & Hs & Hf).
  exists D. split; [done|]. split; [done|].
  intros fuel Hfuel. apply Hf; [done|apply zeros4_shape].
Qed.

Lemma X10_decomposition_returns_witness :
  ∃ D, decompose (2 ^ 2) (sym_matrix 4) = Ok D
    ∧ shape4 2 2 (2 ^ 2 - 1) (2 ^ 2 `div` 2) D
    ∧ ∀ fuel, 1 < fuel →
        configButterfly fuel (sym_matrix 4)
          (View 0 (2 ^ 2 - 1) 0 (2 ^ 2 `div` 2)) (zeros4 (2 ^ 2))
        = Ok D.
Proof.
  apply (X10_decomposition_returns (Sc:=sym_scalars) 1 (sym_matrix 4)).
  - apply sym_svd_ok.
  - apply (sym_matrix_shape 4).
Defined.

(** X11: a call of [configButterfly] on an [n]×[n] block, [n = 2^(k+1)],
    and a view of [Dij] with at least [n-1] layers and [n/2] crossings,
    changes no entry of [Dij] outside the first [n-1] layers of the view.
    (The views [Dij[:, :, :N//2, ...]] handed down for [W1] and [W2] have
    [N/2] layers, one more than the calls fill: the layer [N/2-1], which
    the caller has written, is left as it is.) *)
Theorem X11_decomposition_stays_in_block `{Sc : Scalars}
        (L J k fuel : nat) (U : matrix) (w : view) (D : tensor4) :
  svd_ok → shape2 (2 ^ S k) (2 ^ S k) U → view_ok L J (2 ^ S k) w →
  shape4 2 2 L J D → k < fuel →
  ∃ D', configButterfly fuel U w D = Ok D' ∧ shape4 2 2 L J D'
    ∧ ∀ a b l j, a < 2 → b < 2 → ¬ in_block w (2 ^ S k) l j →
        entry D' a b l j = entry D a b l j.
Proof.
  intros Hsvd HU Hw HD Hfuel.
  destruct (configButterfly_fills L J Hsvd k U w HU Hw) as [g Hg].
  destruct (Hg fuel D Hfuel HD) as (D' & HD' & Hs & He).
  exists D'. split; [done|]. split; [done|].
  intros a b l j Ha Hb Hout. rewrite He by done. by rewrite decide_False.
Qed.

Lemma X11_decomposition_stays_in_block_witness :
  ∃ D', configButterfly 1 (sym_matrix 2) (View 0 2 0 1) (s_Dij (sym_state 4))
        = Ok D'
    ∧ shape4 2 2 (2 ^ 2 - 1) (2 ^ 2 `div` 2) D'
    ∧ ∀ a b l j, a < 2 → b < 2 → ¬ in_block (View 0 2 0 1) (2 ^ 1) l j →
        entry D' a b l j = entry (s_Dij (sym_state 4)) a b l j.
Proof.
  apply (X11_decomposition_stays_in_block (Sc:=sym_scalars)
           (2 ^ 2 - 1) (2 ^ 2 `div` 2) 0 1
           (sym_matrix 2) (View 0 2 0 1) (s_Dij (sym_state 4))).
  - apply sym_svd_ok.
  - apply (sym_matrix_shape 2).
  - unfold view_ok. simpl. lia.
  - apply sym_state_ok.
  - lia.
Defined.

(** X12: the decomposition assigns every entry of [Dij]: started on any
    array of the shape of [Dij] in place of the zeros of line 69, it
    returns the same array. *)
Theorem X12_decomposition_overwrites `{Sc : Scalars}
        (k : nat) (M : matrix) (D0 : tensor4) :
  svd_ok → shape2 (2 ^ S k) (2 ^ S k) M →
  shape4 2 2 (2 ^ S k - 1) (2 ^ S k `div` 2) D0 →
  configButterfly (S (length M)) M
    (View 0 (2 ^ S k - 1) 0 (2 ^ S k `div` 2)) D0
  = decompose (2 ^ S k) M.
Proof.
  intros Hsvd HM HD0.
  destruct (decompose_fills k M Hsvd HM) as (D & -> & _ & Hf).
  apply Hf; [|done]. destruct HM as [-> _]. pose proof (pow2_gt (S k)). lia.
Qed.

Lemma X12_decomposition_overwrites_witness :
  configButterfly (S (length (sym_matrix 4))) (sym_matrix 4)
    (View 0 (2 ^ 2 - 1) 0 (2 ^ 2 `div` 2)) (s_Dij (sym_state 4))
  = decompose (2 ^ 2) (sym_matrix 4).
Proof.
  apply (X12_decomposition_overwrites (Sc:=sym_scalars) 1 (sym_matrix 4)
           (s_Dij (sym_state 4))).
  - apply sym_svd_ok.
  - apply (sym_matrix_shape 4).
  - apply sym_state_ok.
Defined.

(** ** The phase solver (lines 72-80) *)

(** X13: a run of the phase solver that returns has made [2*(N-1)] calls
    of the crossing, whatever the crossing returned: for each layer one
    [Tsolve] in the mode ["T1:"] followed by one [T], both without
    splitter imperfections. *)
Theorem X13_solver_calls `{Sc : Scalars} (X : Crossing) (N : nat)
        (st st' : solver_state) :
  phase_solver X N st = Ok st' →
  ∃ ts ps, length ts = N - 1 ∧ length ps = N - 1
    ∧ s_calls st'
      = s_calls st
        ++ mjoin (zip_with (λ t p, [CallTsolve t "T1:" None; CallT p None])
                           ts ps).
Proof.
  unfold phase_solver. intros H.
  destruct (for_each_calls X N _ st st' H) as (ts & ps & Hts & Hps & Hc).
  rewrite arange_seq, length_seq in Hts, Hps. eauto.
Qed.

Lemma X13_solver_calls_witness :
  ∃ ts ps, length ts = 2 ^ 2 - 1 ∧ length ps = 2 ^ 2 - 1
    ∧ s_calls (spec_phase_solver sym_crossing (2 ^ 2) (sym_state 4))
      = s_calls (sym_state 4)
        ++ mjoin (zip_with (λ t p, [CallTsolve t "T1:" None; CallT p None])
                           ts ps).
Proof.
  apply (X13_solver_calls (Sc:=sym_scalars) sym_crossing (2 ^ 2) (sym_state 4)).
  apply (phase_solver_spec sym_crossing 2 (sym_state 4)).
  - apply sym_state_ok.
  - apply sym_crossing_ok.
Defined.

(** X14: the phase solver assigns every layer of [p_crossing]: the crossing
    parameters the mesh held before do not enter into what it returns. *)
Theorem X14_p_crossing_overwritten `{Sc : Scalars} (X : Crossing) (k : nat)
        (st : solver_state) (pc : list (list (list R))) :
  state_ok (2 ^ k) st → crossing_ok X (2 ^ k `div` 2) →
  shape3 (2 ^ k - 1) (2 ^ k `div` 2) 2 pc →
  phase_solver X (2 ^ k)
    (SolverState (s_Dij st) pc (s_phi_out st) (s_calls st))
  = phase_solver X (2 ^ k) st.
Proof.
  intros Hst HX Hpc.
  destruct (phase_solver_spec X k st Hst HX) as [-> Hok].
  destruct (phase_solver_spec X k
              (SolverState (s_Dij st) pc (s_phi_out st) (s_calls st)))
    as [-> Hok']; [|done|].
  { destruct Hst as (? & ? & ?). done. }
  f_equal. unfold spec_phase_solver in *.
  destruct Hst as (_ & [Hlen _] & _). destruct Hpc as [Hlen' _].
  destruct Hok as (_ & [Hlen2 _] & _). destruct Hok' as (_ & [Hlen1 _] & _).
  destruct (spec_layers_p_crossing X (2 ^ k) (2 ^ k - 1) 0
              (SolverState (s_Dij st) pc (s_phi_out st) (s_calls st)) st)
    as (HD & Hphi & Hc & Hl & Hrows); simpl; try done; try lia.
  apply solver_state_eq; try done.
  apply list_eq. intros l. destruct (decide (l < 2 ^ k - 1)) as [Hlt|Hge].
  - by apply Hrows.
  - rewrite !lookup_ge_None_2; [done|lia..].
Qed.

Lemma X14_p_crossing_overwritten_witness :
  phase_solver sym_crossing (2 ^ 2)
    (SolverState (s_Dij (sym_state 4)) (sym_params 4)
                 (s_phi_out (sym_state 4)) (s_calls (sym_state 4)))
  = phase_solver sym_crossing (2 ^ 2) (sym_state 4).
Proof.
  apply (X14_p_crossing_overwritten (Sc:=sym_scalars) sym_crossing 2
           (sym_state 4) (sym_params 4)).
  - apply sym_state_ok.
  - apply sym_crossing_ok.
  - apply sym_params_shape.
Defined.

(** X15: an array [phi_out] that has not [N] entries makes the solver
    raise at the first layer, for every even [N > 0]: an [IndexError] from
    [phi_out[p1]] when it is shorter, a [ValueError] from the assignment
    [phi_out[:] = ...] when it is longer. *)
Theorem X15_phi_out_length `{Sc : Scalars} (X : Crossing) (n : nat)
        (st : solver_state) :
  0 < n →
  (length (s_phi_out st) < 2 * n →
   phase_solver X (2 * n) st = Err IndexError)
  ∧ (2 * n < length (s_phi_out st) →
     phase_solver X (2 * n) st = Err ValueError).
Proof.
  intros Hn. unfold phase_solver. rewrite arange_seq.
  replace (2 * n - 1) with (S (2 * n - 2)) by lia. cbn [seq for_each].
  destruct (solve_layer_0_phi_out X n st Hn) as [H1 H2].
  split; intros Hlen; [rewrite H1|rewrite H2]; done.
Qed.

Lemma X15_phi_out_length_witness :
  phase_solver sym_crossing (2 * 2) (sym_state 2) = Err IndexError
  ∧ phase_solver sym_crossing (2 * 1) (sym_state 4) = Err ValueError.
Proof.
  split.
  - apply (proj1 (X15_phi_out_length (Sc:=sym_scalars) sym_crossing 2
                    (sym_state 2) ltac:(lia))). simpl. lia.
  - apply (proj2 (X15_phi_out_length (Sc:=sym_scalars) sym_crossing 1
                    (sym_state 4) ltac:(lia))). simpl. lia.
Defined.

(** X16: the phase solver changes [Dij] by phase factors only: after a run
    on a mesh of size [N = 2^k], every entry [Dij[a, b, l, j]] is the entry
    it was before times one factor [exp(1j*f)], [f] real. *)
Theorem X16_solver_phase_factors `{Sc : Scalars} (X : Crossing) (k : nat)
        (st : solver_state) :
  state_ok (2 ^ k) st → crossing_ok X (2 ^ k `div` 2) →
  ∃ st', phase_solver X (2 ^ k) st = Ok st'
    ∧ ∀ a b l j, a < 2 → b < 2 → l < 2 ^ k - 1 → j < 2 ^ k `div` 2 →
        ∃ f : R,
          entry (s_Dij st') a b l j
          = cmul (entry (s_Dij st) a b l j) (cexp (cmul c1j (of_real f))).
Proof.
  intros Hst HX. destruct (phase_solver_spec X k st Hst HX) as [Hrun _].
  eexists. split; [exact Hrun|]. intros a b l j Ha Hb Hl Hj.
  unfold spec_phase_solver.
  apply (spec_layers_Dij X (2 ^ k) (2 ^ k - 1) 0 st a b l j); [done..|lia].
Qed.

Lemma X16_solver_phase_factors_witness :
  ∃ st', phase_solver sym_crossing (2 ^ 2) (sym_state 4) = Ok st'
    ∧ ∀ a b l j, a < 2 → b < 2 → l < 2 ^ 2 - 1 → j < 2 ^ 2 `div` 2 →
        ∃ f : sym,
          entry (s_Dij st') a b l j
          = SMul (entry (s_Dij (sym_state 4)) a b l j)
                 (SExp (SMul SImag (SOfReal f))).
Proof.
  apply (X16_solver_phase_factors (Sc:=sym_scalars) sym_crossing 2
           (sym_state 4)).
  - apply sym_state_ok.
  - apply sym_crossing_ok.
Defined.

(** ** The configuration as a whole (lines 54-80) *)



(** X18: when the mesh holds another number of crossing parameters than
    [(N-1)*(N/2)*2], the configuration to a [2^(k+1)]×[2^(k+1)] matrix
    raises the [ValueError] of the [reshape] of line 72, after the
    decomposition has returned. *)
Theorem X18_p_crossing_size `{Sc : Scalars} (self : mesh) (k : nat)
        (M : matrix) :
  svd_ok → is_MZICrossing (m_X self) = true →
  shape2 (2 ^ S k) (2 ^ S k) M →
  length (nd_data (m_p_crossing self))
  ≠ (2 ^ S k - 1) * (2 ^ S k `div` 2) * 2 →
  (∃ D, decompose (2 ^ S k) M = Ok D)
  ∧ configure self (2 ^ S k) M = Err ValueError.
Proof.
  intros Hsvd HX HM Hpc.
  destruct (decompose_fills k M Hsvd HM) as (D & HD & _).
  split; [by exists D|].
  unfold configure, configure_trace, reshape3.
  rewrite HX, HD, bind_Ok. by rewrite decide_False.
Qed.

Lemma X18_p_crossing_size_witness :
  (∃ D, decompose (2 ^ 2) (sym_matrix 4) = Ok D)
  ∧ configure (sym_mesh 2 (NdArray [] [SZero])) (2 ^ 2) (sym_matrix 4)
    = Err ValueError.
Proof.
  apply (X18_p_crossing_size (Sc:=sym_scalars)
           (sym_mesh 2 (NdArray [] [SZero])) 1 (sym_matrix 4)).
  - apply sym_svd_ok.
  - reflexivity.
  - apply (sym_matrix_shape 4).
  - vm_compute. lia.
Defined.


